(** * brighten_icon.py: a shallow embedding of the icon brightening pipeline

    The script opens a PNG, splits it into bands, runs Pillow's Brightness,
    Contrast and Color enhancers on the RGB part, re-attaches the alpha band,
    blurs a copy and alpha-composites the sharp image over the blurred one.

    The script itself is a straight line of Pillow calls, so the embedding has
    two layers: the Pillow primitives the script calls (Image.split,
    Image.merge, ImageEnhance, Image.blend, Image.alpha_composite), written
    after Pillow's own implementation with 8-bit channels as [Z] and C [float]
    arithmetic as IEEE binary32 ([SpecFloat], round to nearest even, every
    operation rounded to single precision), and the script's two code blocks
    ([brighten_icon] and the [__main__] guard) on top of them. *)

From Stdlib Require Import ZArith QArith Lia SpecFloat Zpower.
From stdpp Require Import base option list strings gmap.

Local Open Scope Z_scope.

(** ** IEEE arithmetic used by Pillow

    Python floats are binary64; [Image.blend] receives its factor as a C
    [double] and narrows it to [float] before the pixel loop. *)

Module Float64.
Definition prec : Z := 53.
Definition emax : Z := 1024.
Definition of_Z (n : Z) : spec_float := binary_normalize prec emax n 0 false.
Definition add := SFadd prec emax.
Definition div := SFdiv prec emax.
(** The double denoted by the decimal literal [n/d] (correctly rounded). *)
Definition literal (n d : Z) : spec_float := div (of_Z n) (of_Z d).
End Float64.

Module Float32.
Definition prec : Z := 24.
Definition emax : Z := 128.
Definition of_Z (n : Z) : spec_float := binary_normalize prec emax n 0 false.
Definition add := SFadd prec emax.
Definition mul := SFmul prec emax.
(** The C cast [(float)x] of a double. *)
Definition of_double (x : spec_float) : spec_float :=
  match x with
  | S754_finite s m e => binary_round prec emax s m e
  | _ => x
  end.
Definition zero : spec_float := S754_zero false.
Definition one : spec_float := of_Z 1.
End Float32.

(** C conversion of a floating value to an integer type: the fractional part
    is discarded.  (Infinite and NaN operands are undefined in C and do not
    arise in the script; here an infinity goes beyond every finite single
    precision value and NaN goes to 0.) *)
Definition trunc (x : spec_float) : Z :=
  match x with
  | S754_finite s m e => cond_Zopp s (Z.shiftl (Z.pos m) e)
  | S754_infinity s => cond_Zopp s (2 ^ 128)
  | _ => 0
  end.

(** Python's [int(x)] on a float. *)
Definition py_int : spec_float -> Z := trunc.

(** A store into a [UINT8] lvalue. *)
Definition to_uint8 (n : Z) : Z := n mod 256.

(** ** Images

    A Pillow image has a mode, a size and pixel data.  The script only ever
    holds images of mode L (one band), RGB and RGBA, so the mode is carried by
    the pixel type. *)

Record rgb8 := RGB8 { rgb_r : Z; rgb_g : Z; rgb_b : Z }.
Record rgba8 := RGBA8 { rgba_r : Z; rgba_g : Z; rgba_b : Z; rgba_a : Z }.

Record Image (P : Type) := mkImage {
  im_size : nat * nat;          (* (width, height) *)
  im_data : list P;             (* row-major, width * height pixels *)
}.
Arguments mkImage {P} _ _.
Arguments im_size {P} _.
Arguments im_data {P} _.

Definition npixels (sz : nat * nat) : nat := (sz.1 * sz.2)%nat.

Definition is_uint8 (v : Z) : Prop := 0 <= v <= 255.
Definition rgb_ok (p : rgb8) : Prop :=
  is_uint8 (rgb_r p) ∧ is_uint8 (rgb_g p) ∧ is_uint8 (rgb_b p).
Definition rgba_ok (p : rgba8) : Prop :=
  is_uint8 (rgba_r p) ∧ is_uint8 (rgba_g p) ∧ is_uint8 (rgba_b p) ∧
  is_uint8 (rgba_a p).

(** What every image object built by Pillow satisfies: the buffer holds
    exactly width * height pixels of 8-bit channels. *)
Definition well_formed {P} (ok : P → Prop) (im : Image P) : Prop :=
  length (im_data im) = npixels (im_size im) ∧ Forall ok (im_data im).

(** A decoded picture has at least one pixel. *)
Definition nonempty {P} (im : Image P) : Prop := (0 < npixels (im_size im))%nat.

(** ** Exceptions *)

Inductive exn :=
  | FileNotFoundError (path : string)
  | UnidentifiedImageError (path : string)
  | PermissionError (path : string)
  | ValueError (msg : string)
  | ZeroDivisionError.

Inductive result (A : Type) :=
  | Ok (x : A)
  | Raise (e : exn).
Arguments Ok {A} _.
Arguments Raise {A} _.

#[global] Instance result_ret : MRet result := λ A x, Ok x.
#[global] Instance result_bind : MBind result := λ A B f m,
  match m with
  | Ok x => f x
  | Raise e => Raise e
  end.

Definition size_eqb (s1 s2 : nat * nat) : bool :=
  bool_decide (s1 = s2).

(** ** Band operations: [Image.split], [Image.getchannel], [Image.merge] *)

Definition zip3 {A B C D} (f : A → B → C → D)
    (l1 : list A) (l2 : list B) (l3 : list C) : list D :=
  zip_with (λ k z, k z) (zip_with f l1 l2) l3.

Definition zip4 {A B C D E} (f : A → B → C → D → E)
    (l1 : list A) (l2 : list B) (l3 : list C) (l4 : list D) : list E :=
  zip_with (λ k z, k z) (zip3 f l1 l2 l3) l4.

Definition getband {P} (chan : P → Z) (im : Image P) : Image Z :=
  mkImage (im_size im) (chan <$> im_data im).

(** [r, g, b, a = img.split()] *)
Definition split_RGBA (im : Image rgba8)
    : Image Z * Image Z * Image Z * Image Z :=
  (getband rgba_r im, getband rgba_g im, getband rgba_b im, getband rgba_a im).

(** [r_new, g_new, b_new = rgb_img.split()] *)
Definition split_RGB (im : Image rgb8) : Image Z * Image Z * Image Z :=
  (getband rgb_r im, getband rgb_g im, getband rgb_b im).

(** [Image.merge] raises [ValueError] unless every band has the size of the
    first; the result takes that size. *)
Definition merge_RGB (r g b : Image Z) : result (Image rgb8) :=
  if negb (size_eqb (im_size g) (im_size r)) ||
     negb (size_eqb (im_size b) (im_size r))
  then Raise (ValueError "size mismatch")
  else Ok (mkImage (im_size r) (zip3 RGB8 (im_data r) (im_data g) (im_data b))).

Definition merge_RGBA (r g b a : Image Z) : result (Image rgba8) :=
  if negb (size_eqb (im_size g) (im_size r)) ||
     negb (size_eqb (im_size b) (im_size r)) ||
     negb (size_eqb (im_size a) (im_size r))
  then Raise (ValueError "size mismatch")
  else Ok (mkImage (im_size r)
             (zip4 RGBA8 (im_data r) (im_data g) (im_data b) (im_data a))).

(** ** [Image.new], [Image.convert] *)

Definition CLIP8 (v : Z) : Z := if v <=? 0 then 0 else if v <? 256 then v else 255.

(** [Image.new("L", size, color)]: the ink of a one-band image is clipped. *)
Definition new_L (sz : nat * nat) (color : Z) : Image Z :=
  mkImage sz (replicate (npixels sz) (CLIP8 color)).

(** [Image.new("RGB", size, 0)] *)
Definition new_RGB_black (sz : nat * nat) : Image rgb8 :=
  mkImage sz (replicate (npixels sz) (RGB8 0 0 0)).

(** ITU-R 601-2 luma as Pillow computes it for RGB to L. *)
Definition L24 (p : rgb8) : Z :=
  (rgb_r p * 19595 + rgb_g p * 38470 + rgb_b p * 7471 + 32768) ≫ 16.

Definition convert_RGB_L (im : Image rgb8) : Image Z :=
  mkImage (im_size im) (L24 <$> im_data im).

Definition convert_L_RGB (im : Image Z) : Image rgb8 :=
  mkImage (im_size im) ((λ v, RGB8 v v v) <$> im_data im).

(** ** [ImageStat.Stat(...).mean] of a one-band image

    Pillow works from the 256-bin histogram: the count is the sum of the
    bins, the sum is accumulated in a Python float, the mean is their
    quotient. *)

Definition sumZ (l : list Z) : Z := foldr Z.add 0 l.

Definition histogram (im : Image Z) : list Z :=
  (λ j, Z.of_nat (length (filter (λ v, v = j) (im_data im)))) <$> seqZ 0 256.

Definition stat_count (h : list Z) : Z := sumZ h.
Definition stat_sum (h : list Z) : Z := sumZ (zip_with Z.mul (seqZ 0 256) h).

Definition stat_mean (im : Image Z) : result spec_float :=
  let h := histogram im in
  if stat_count h =? 0 then Raise ZeroDivisionError
  else Ok (Float64.div (Float64.of_Z (stat_sum h)) (Float64.of_Z (stat_count h))).

(** ** [Image.blend(im1, im2, alpha)]

    The pixel loop of Pillow's [ImagingBlend], one channel. *)
Definition blend_temp (alpha : spec_float) (in1 in2 : Z) : spec_float :=
  Float32.add (Float32.of_Z in1) (Float32.mul alpha (Float32.of_Z (in2 - in1))).

Definition blend_chan (alpha : spec_float) (in1 in2 : Z) : Z :=
  if SFleb Float32.zero alpha && SFleb alpha Float32.one then
    (* interpolation *)
    to_uint8 (trunc (blend_temp alpha in1 in2))
  else
    (* extrapolation: clip the result *)
    let temp := blend_temp alpha in1 in2 in
    if SFleb temp Float32.zero then 0
    else if SFleb (Float32.of_Z 255) temp then 255
    else to_uint8 (trunc temp).

Definition blend_rgb (alpha : spec_float) (p1 p2 : rgb8) : rgb8 :=
  RGB8 (blend_chan alpha (rgb_r p1) (rgb_r p2))
       (blend_chan alpha (rgb_g p1) (rgb_g p2))
       (blend_chan alpha (rgb_b p1) (rgb_b p2)).

Definition blend (im1 im2 : Image rgb8) (alpha : spec_float)
    : result (Image rgb8) :=
  if negb (size_eqb (im_size im1) (im_size im2))
  then Raise (ValueError "images do not match")
  else
    let alpha := Float32.of_double alpha in
    if SFeqb alpha Float32.zero then Ok im1
    else if SFeqb alpha Float32.one then Ok im2
    else Ok (mkImage (im_size im1)
               (zip_with (blend_rgb alpha) (im_data im1) (im_data im2))).

(** ** [ImageEnhance]

    An enhancer keeps the image and a degenerate version of it; [enhance]
    blends from the degenerate image towards (and past) the image. *)

Record Enhancer := mkEnhancer {
  enh_image : Image rgb8;
  enh_degenerate : Image rgb8;
}.

Definition enhance (e : Enhancer) (factor : spec_float) : result (Image rgb8) :=
  blend (enh_degenerate e) (enh_image e) factor.

(** [ImageEnhance.Brightness]: the degenerate image is black. *)
Definition Brightness (image : Image rgb8) : result Enhancer :=
  Ok (mkEnhancer image (new_RGB_black (im_size image))).

(** [ImageEnhance.Contrast]: the degenerate image is a solid grey at the
    rounded mean luminance. *)
Definition Contrast (image : Image rgb8) : result Enhancer :=
  m ← stat_mean (convert_RGB_L image);
  let mean := py_int (Float64.add m (Float64.literal 5 10)) in
  Ok (mkEnhancer image (convert_L_RGB (new_L (im_size image) mean))).

(** [ImageEnhance.Color]: the degenerate image is the greyscale version. *)
Definition Color (image : Image rgb8) : result Enhancer :=
  Ok (mkEnhancer image (convert_L_RGB (convert_RGB_L image))).

(** ** [Image.alpha_composite(im1, im2)]: [im2] over [im1]

    Pillow's [ImagingAlphaComposite], in 32-bit unsigned integer arithmetic
    with seven extra bits of precision. *)

Definition u32 (n : Z) : Z := n mod 2 ^ 32.
Definition PRECISION_BITS : Z := 7.
Definition SHIFTFORDIV255 (a : Z) : Z := u32 (u32 ((a ≫ 8) + a) ≫ 8).

Definition composite_chan (coef1 coef2 s d : Z) : Z :=
  let tmp := u32 (s * coef1 + d * coef2) in
  to_uint8 (SHIFTFORDIV255 (u32 (tmp + (128 ≪ PRECISION_BITS))) ≫ PRECISION_BITS).

Definition composite_px (dst src : rgba8) : rgba8 :=
  if rgba_a src =? 0 then dst
  else
    let blend := u32 (rgba_a dst * (255 - rgba_a src)) in
    let outa255 := u32 (rgba_a src * 255 + blend) in
    let coef1 := u32 (rgba_a src * 255 * 255 * (1 ≪ PRECISION_BITS) / outa255) in
    let coef2 := u32 (255 * (1 ≪ PRECISION_BITS) - coef1) in
    RGBA8 (composite_chan coef1 coef2 (rgba_r src) (rgba_r dst))
          (composite_chan coef1 coef2 (rgba_g src) (rgba_g dst))
          (composite_chan coef1 coef2 (rgba_b src) (rgba_b dst))
          (to_uint8 (SHIFTFORDIV255 (u32 (outa255 + 128)))).

Definition alpha_composite (im1 im2 : Image rgba8) : result (Image rgba8) :=
  if negb (size_eqb (im_size im1) (im_size im2))
  then Raise (ValueError "images do not match")
  else Ok (mkImage (im_size im1)
             (zip_with composite_px (im_data im1) (im_data im2))).

(** ** The outside world: files, standard output *)

Definition bytes := list Byte.byte.

Record World := mkWorld {
  files : gmap string bytes;        (* path -> contents *)
  writable : string → bool;         (* can the path be opened for writing? *)
  stdout : list string;             (* lines printed so far *)
}.

Definition IO (A : Type) : Type := World → result A * World.

Definition io_ret {A} (x : A) : IO A := λ w, (Ok x, w).
Definition io_bind {A B} (m : IO A) (k : A → IO B) : IO B := λ w,
  match m w with
  | (Ok x, w') => k x w'
  | (Raise e, w') => (Raise e, w')
  end.
Definition io_lift {A} (r : result A) : IO A := λ w, (r, w).

Notation "x ←io m ; k" := (io_bind m (λ x, k))
  (at level 20, m at level 100, k at level 200, right associativity, only parsing).
Notation "m ;io k" := (io_bind m (λ _, k))
  (at level 100, k at level 200, right associativity, only parsing).

Definition print (line : string) : IO unit := λ w,
  (Ok (), mkWorld (files w) (writable w) (stdout w ++ [line])).

(** [str(e)] for the exceptions above. *)
Definition exn_str (e : exn) : string :=
  match e with
  | FileNotFoundError p => "[Errno 2] No such file or directory: '" +:+ p +:+ "'"
  | UnidentifiedImageError p => "cannot identify image file '" +:+ p +:+ "'"
  | PermissionError p => "[Errno 13] Permission denied: '" +:+ p +:+ "'"
  | ValueError msg => msg
  | ZeroDivisionError => "float division by zero"
  end.

(** The three literals of the enhancement stage. *)
Definition BRIGHTNESS : spec_float := Float64.literal 14 10.
Definition CONTRAST : spec_float := Float64.literal 13 10.
Definition SATURATION : spec_float := Float64.literal 15 10.
Definition GLOW_RADIUS : Z := 4.

(** The local variables of [brighten_icon] once the image is processed. *)
Record Frame := mkFrame {
  v_img : Image rgba8;            (* the opened image, converted to RGBA *)
  v_a : Image Z;                  (* alpha band from [img.split()] *)
  v_rgb_img : Image rgb8;         (* [Image.merge('RGB', (r, g, b))] *)
  v_bright : Image rgb8;          (* after the Brightness enhancer *)
  v_contrast : Image rgb8;        (* after the Contrast enhancer *)
  v_color : Image rgb8;           (* after the Color enhancer *)
  v_brightened : Image rgba8;     (* [Image.merge('RGBA', ...)] *)
  v_glow : Image rgba8;           (* the blurred copy *)
  v_final : Image rgba8;          (* [Image.alpha_composite(glow, brightened)] *)
}.

Section BrightenIcon.

(** Pillow's codecs and its Gaussian blur are taken as given.
    [decode] stands for [Image.open(path).convert('RGBA')] on the contents
    of the file ([None]: Pillow cannot identify or decode them), [encode]
    for the PNG encoder behind [Image.save], and [GaussianBlur radius] for
    [Image.filter(ImageFilter.GaussianBlur(radius))]. *)
Variable decode : bytes → option (Image rgba8).
Variable encode : Image rgba8 → bytes.
Variable GaussianBlur : Z → Image rgba8 → Image rgba8.

(** [Image.open(input_path).convert('RGBA')] *)
Definition Image_open (path : string) : IO (Image rgba8) := λ w,
  match files w !! path with
  | None => (Raise (FileNotFoundError path), w)
  | Some contents =>
      match decode contents with
      | None => (Raise (UnidentifiedImageError path), w)
      | Some img => (Ok img, w)
      end
  end.

(** [final.save(output_path, 'PNG', optimize=True)] *)
Definition save (im : Image rgba8) (path : string) : IO unit := λ w,
  if writable w path
  then (Ok (), mkWorld (<[path := encode im]> (files w)) (writable w) (stdout w))
  else (Raise (PermissionError path), w).

(** Lines 19-48 of the script, with the brightness literal as a parameter
    (the script passes [BRIGHTNESS]). *)
Definition process_with (brightness : spec_float) (img : Image rgba8)
    : result Frame :=
  (* Split into channels *)
  let '(r, g, b, a) := split_RGBA img in
  (* Create RGB image without alpha for processing *)
  rgb_img ← merge_RGB r g b;
  enhancer ← Brightness rgb_img;
  rgb_img1 ← enhance enhancer brightness;
  enhancer ← Contrast rgb_img1;
  rgb_img2 ← enhance enhancer CONTRAST;
  enhancer ← Color rgb_img2;
  rgb_img3 ← enhance enhancer SATURATION;
  (* Split processed RGB *)
  let '(r_new, g_new, b_new) := split_RGB rgb_img3 in
  (* Recombine with original alpha channel *)
  brightened ← merge_RGBA r_new g_new b_new a;
  (* Create glow effect *)
  let glow := brightened in
  let glow := GaussianBlur GLOW_RADIUS glow in
  final ← alpha_composite glow brightened;
  mret (mkFrame img a rgb_img rgb_img1 rgb_img2 rgb_img3 brightened glow final).

Definition process : Image rgba8 → result Frame := process_with BRIGHTNESS.

Definition brighten_icon (input_path output_path : string) : IO unit :=
  img ←io Image_open input_path;
  fr ←io io_lift (process img);
  save (v_final fr) output_path ;io
  print ("[SUCCESS] Brightened icon saved to: " +:+ output_path) ;io
  print "   - Brightness: 1.4x (subtle)" ;io
  print "   - Contrast: 1.3x" ;io
  print "   - Saturation: 1.5x" ;io
  print "   - Glow: 4px Gaussian blur (subtle)".

Definition input_file : string := "apps/web/public/notext.png".
Definition output_file : string := "apps/web/public/notext-bright.png".

(** The [__main__] block: the exit status and the final world. *)
Definition main (w : World) : Z * World :=
  match brighten_icon input_file output_file w with
  | (Ok _, w') => (0, w')
  | (Raise e, w') =>
      match print ("[ERROR] " +:+ exn_str e) w' with
      | (_, w'') => (1, w'')
      end
  end.

End BrightenIcon.

(** ** Notions the statements below are written in *)

Definition clamp255 (z : Z) : Z := Z.max 0 (Z.min 255 z).

(** Scaling the distance of [v] from the degenerate level [d] by the single
    precision factor [f], saturating at both ends of the 8-bit range. *)
Definition scale_from (f : spec_float) (d v : Z) : Z :=
  clamp255 (trunc (blend_temp f d v)).

Definition scale_rgb (f : spec_float) (d p : rgb8) : rgb8 :=
  RGB8 (scale_from f (rgb_r d) (rgb_r p))
       (scale_from f (rgb_g d) (rgb_g p))
       (scale_from f (rgb_b d) (rgb_b p)).

Definition rgb_of (p : rgba8) : rgb8 := RGB8 (rgba_r p) (rgba_g p) (rgba_b p).
Definition with_alpha (c : rgb8) (alpha : Z) : rgba8 :=
  RGBA8 (rgb_r c) (rgb_g c) (rgb_b c) alpha.
Definition attach_alpha (c : rgb8) (x : rgba8) : rgba8 := with_alpha c (rgba_a x).
Definition grey (v : Z) : rgb8 := RGB8 v v v.

Definition rgb_part (img : Image rgba8) : Image rgb8 :=
  mkImage (im_size img) (rgb_of <$> im_data img).

(** The factors as the pixel loop of [blend] sees them. *)
Definition f32_brightness : spec_float := Float32.of_double BRIGHTNESS.
Definition f32_contrast : spec_float := Float32.of_double CONTRAST.
Definition f32_saturation : spec_float := Float32.of_double SATURATION.

(** The grey level [ImageEnhance.Contrast] blends from. *)
Definition mean_level (im : Image rgb8) : Z :=
  let h := histogram (convert_RGB_L im) in
  CLIP8 (py_int (Float64.add
                   (Float64.div (Float64.of_Z (stat_sum h))
                                (Float64.of_Z (stat_count h)))
                   (Float64.literal 5 10))).

(** The three enhancers of the script, one pixel at a time. *)
Definition bright_px (p : rgb8) : rgb8 := blend_rgb f32_brightness (grey 0) p.
Definition contrast_px (m : Z) (p : rgb8) : rgb8 := blend_rgb f32_contrast (grey m) p.
Definition color_px (p : rgb8) : rgb8 := blend_rgb f32_saturation (grey (L24 p)) p.

(** What Pillow guarantees of the blur: same size, 8-bit channels. *)
Definition blur_contract (blur : Z → Image rgba8 → Image rgba8) : Prop :=
  ∀ radius im, well_formed rgba_ok im →
    im_size (blur radius im) = im_size im ∧ well_formed rgba_ok (blur radius im).

(** The five lines a successful run prints. *)
Definition success_report (output_path : string) : list string :=
  [ "[SUCCESS] Brightened icon saved to: " +:+ output_path;
    "   - Brightness: 1.4x (subtle)";
    "   - Contrast: 1.3x";
    "   - Saturation: 1.5x";
    "   - Glow: 4px Gaussian blur (subtle)" ].

(** *** Two readings of "source over destination"

    With 8-bit operands, 255 * 255 times the normalised result alpha is
    [over_alpha], and 255 * 255 * 255 times the normalised premultiplied
    result colour is [over_premult]. *)
Definition over_alpha (dst src : rgba8) : Z :=
  rgba_a src * 255 + rgba_a dst * (255 - rgba_a src).

Definition over_premult (chan : rgba8 → Z) (dst src : rgba8) : Z :=
  chan src * (rgba_a src * 255) + chan dst * (rgba_a dst * (255 - rgba_a src)).

(** The formula of the specification: the stored colour is the premultiplied
    sum itself, the stored alpha the "over" alpha, each within one 8-bit step
    (whatever the rounding back to integers is). *)
Definition premultiplied_over (dst src out : rgba8) : Prop :=
  Z.abs (255 * rgba_a out - over_alpha dst src) < 255 ∧
  Z.abs (255 * 255 * rgba_r out - over_premult rgba_r dst src) < 255 * 255 ∧
  Z.abs (255 * 255 * rgba_g out - over_premult rgba_g dst src) < 255 * 255 ∧
  Z.abs (255 * 255 * rgba_b out - over_premult rgba_b dst src) < 255 * 255.

(** What Pillow stores: a transparent source pixel leaves the destination
    pixel as it is; otherwise the alpha is the "over" alpha rounded to
    nearest, and the colour is the premultiplied sum divided by the result
    alpha (straight, not premultiplied), within one 8-bit step. *)
Definition straight_over (dst src out : rgba8) : Prop :=
  if decide (rgba_a src = 0) then out = dst
  else
    let A := over_alpha dst src in
    Z.abs (255 * rgba_a out - A) <= 127 ∧
    Z.abs (rgba_r out * A - over_premult rgba_r dst src) < A ∧
    Z.abs (rgba_g out * A - over_premult rgba_g dst src) < A ∧
    Z.abs (rgba_b out * A - over_premult rgba_b dst src) < A.

(** Mean luminance of the colour channels of an image. *)
Definition luminance_sum (im : Image rgba8) : Z :=
  sumZ (L24 ∘ rgb_of <$> im_data im).

Definition mean_luminance (im : Image rgba8) : Q :=
  Qmake (luminance_sum im) (Pos.of_nat (length (im_data im))).

(** ** Notions for the floating point facts

    [binary_round_aux] shifts the mantissa right and rounds it; the
    definitions below name what it arrives at, so that the operations of
    [SpecFloat] can be compared with arithmetic on integers. *)

(** Rounding [m / 2 ^ n] to nearest, ties to even. *)
Definition rne_shift (m n : Z) : Z :=
  let q := m / 2 ^ n in
  let rem := m mod 2 ^ n in
  let half := 2 ^ (n - 1) in
  if rem <? half then q
  else if half <? rem then q + 1
  else if Z.even q then q else q + 1.

(** The mantissa and exponent [binary_round_aux] arrives at, for an exact
    positive input [mx * 2 ^ ex]. *)
Definition round_mant (prec emax mx ex : Z) : Z * Z :=
  let E := fexp prec emax (Z.log2 mx + 1 + ex) in
  if E <=? ex then (mx, ex)
  else
    let q := rne_shift mx (E - ex) in
    if q =? 2 ^ prec then (2 ^ (prec - 1), E + 1) else (q, E).

(** The float built from a mantissa and an exponent. *)
Definition pack (prec emax : Z) (s : bool) (me : Z * Z) : spec_float :=
  match me.1 with
  | Z0 => S754_zero s
  | Z.pos p =>
      if me.2 <=? emax - prec then S754_finite s p me.2 else S754_infinity s
  | Z.neg _ => S754_nan
  end.

(** A mantissa is canonical at its exponent when no further shift applies. *)
Definition canonical_at (prec emax m e : Z) : Prop :=
  fexp prec emax (Z.log2 m + 1 + e) = e.

(** A float as the operations return it: any finite value is canonical. *)
Definition nice (prec emax : Z) (x : spec_float) : Prop :=
  match x with
  | S754_finite _ m e => canonical_at prec emax (Z.pos m) e
  | _ => True
  end.

Definition nice32 := nice 24 128.

(** Round to nearest even in the format, on a value scaled by [2 ^ S]
    (the integer [X] stands for the value [X / 2 ^ S]; the exponent range is
    unbounded above). *)
Definition RN (prec emax S X : Z) : Z :=
  let g := Z.max (Z.log2 X + 1 - prec) (emin prec emax + S) in
  if (X <=? 0) || (g <=? 0) then X else rne_shift X g * 2 ^ g.

(** Single precision values are scaled by [2 ^ S32]; every double and every
    product the blend loop forms is an integer at that scale. *)
Definition S32 : Z := 1100.
Definition RN32 : Z → Z := RN 24 128 S32.

(** Every integer the blend loop converts is zero or a normal number. *)
Definition of_Z_normal (k : Z) : bool :=
  match Float32.of_Z k with
  | S754_finite _ m _ => 24 <=? Z.log2 (Z.pos m) + 1
  | S754_zero _ => true
  | _ => false
  end.

(** The conversion of a non-zero 8-bit integer is exact. *)
Definition of_Z_exact (v : Z) : bool :=
  match Float32.of_Z v with
  | S754_finite false m e => (-23 <=? e) && (e <=? 0) && (Z.pos m =? v * 2 ^ (- e))
  | _ => false
  end.

(** One channel of [blend] from black at the single precision factor [a]. *)
Definition bright_chan (a : spec_float) (v : Z) : Z :=
  if SFeqb a Float32.zero then 0
  else if SFeqb a Float32.one then v
  else blend_chan a 0 v.

Definition bright_rgb (a : spec_float) (p : rgb8) : rgb8 :=
  RGB8 (bright_chan a (rgb_r p)) (bright_chan a (rgb_g p)) (bright_chan a (rgb_b p)).

(** The same channel from the scaled value [A] of the factor. *)
Definition bright_of (A v : Z) : Z := clamp255 (RN32 (A * v) / 2 ^ S32).

(** Factors that are not positive give black. *)
Definition nonpositive (a : spec_float) : Prop :=
  match a with
  | S754_zero _ | S754_finite true _ _ | S754_infinity true => True
  | _ => False
  end.

(** ** Concrete data for the examples *)

(** A stand-in for the blur where its effect does not matter. *)
Definition no_blur (radius : Z) (im : Image rgba8) : Image rgba8 := im.

(** A toy codec for one-pixel pictures: four bytes, R G B A. *)
Definition byte_val (x : Byte.byte) : Z := Z.of_N (Byte.to_N x).
Definition byte_of (v : Z) : Byte.byte :=
  default Byte.x00 (Byte.of_N (Z.to_N v)).

Definition raw_decode (contents : bytes) : option (Image rgba8) :=
  match contents with
  | [r; g; b; a] =>
      Some (mkImage (1%nat, 1%nat)
              [RGBA8 (byte_val r) (byte_val g) (byte_val b) (byte_val a)])
  | _ => None
  end.

Definition raw_encode (im : Image rgba8) : bytes :=
  p ← im_data im;
  [byte_of (rgba_r p); byte_of (rgba_g p); byte_of (rgba_b p); byte_of (rgba_a p)].

(** A 2 x 2 icon: an opaque and a half-transparent neon-blue pixel over two
    fully transparent ones. *)
Definition icon_2x2 : Image rgba8 :=
  mkImage (2%nat, 2%nat)
    [RGBA8 0 150 255 255; RGBA8 0 150 255 128; RGBA8 0 0 0 0; RGBA8 255 255 255 0].

(** The same icon with every pixel opaque. *)
Definition opaque_2x2 : Image rgba8 :=
  mkImage (2%nat, 2%nat)
    [RGBA8 0 150 255 255; RGBA8 0 150 255 255; RGBA8 0 0 0 255; RGBA8 255 255 255 255].

(** One half-transparent white pixel. *)
Definition half_white : Image rgba8 :=
  mkImage (1%nat, 1%nat) [RGBA8 255 255 255 128].

(** Two opaque grey pixels, one dark and one light. *)
Definition two_greys : Image rgba8 :=
  mkImage (2%nat, 1%nat) [RGBA8 60 60 60 255; RGBA8 250 250 250 255].

(** The factors 0.0, 1.0 and 1.015625 as Python floats. *)
Definition factor_zero : spec_float := Float64.literal 0 1.
Definition factor_one : spec_float := Float64.literal 1 1.
Definition factor_high : spec_float := Float64.literal 65 64.

(** A world with no file at all, and one holding a one-pixel input. *)
Definition empty_world : World := mkWorld ∅ (λ _, true) [].

Definition world_with_icon : World :=
  mkWorld {[ "apps/web/public/notext.png" := [Byte.x00; Byte.x96; Byte.xff; Byte.xff] ]}
          (λ _, true) [].

(** ** A check run over the whole 8-bit range *)

Definition all_uint8 (P : Z → bool) : bool := forallb P (seqZ 0 256).

(** The frame [process] ends in, in closed form. *)
Definition frame_of (GaussianBlur : Z → Image rgba8 → Image rgba8)
  (img : Image rgba8) : Frame :=
  let sz := im_size img in
  let rgb := rgb_part img in
  let bright := mkImage sz (bright_px <$> im_data rgb) in
  let contrast := mkImage sz (contrast_px (mean_level bright) <$> im_data bright) in
  let color := mkImage sz (color_px <$> im_data contrast) in
  let brightened := mkImage sz (zip_with attach_alpha (im_data color) (im_data img)) in
  let glow := GaussianBlur GLOW_RADIUS brightened in
  let final := mkImage sz (zip_with composite_px (im_data glow) (im_data brightened)) in
  mkFrame img (getband rgba_a img) rgb bright contrast color brightened glow final.

(** * Properties *)

(** ** The exhaustive check over the 8-bit range *)

Lemma all_uint8_spec (P : Z → bool) :
  all_uint8 P = true → ∀ v, is_uint8 v → P v = true.
Proof.
  unfold all_uint8, is_uint8. intros H v Hv.
  rewrite forallb_forall in H. apply H.
  apply list_elem_of_In, elem_of_seqZ. lia.
Qed.

(** ** List helpers *)

Lemma zip3_fmap {A B C D E} (f : B → C → D → E) (a : A → B) (b : A → C)
    (c : A → D) (l : list A) :
  zip3 f (a <$> l) (b <$> l) (c <$> l) = (λ x, f (a x) (b x) (c x)) <$> l.
Proof. unfold zip3. induction l as [|x l IH]; simpl; [done | by f_equal]. Qed.

Lemma zip_with_fmap_diag {A B C} (f : B → A → C) (g : A → B) (l : list A) :
  zip_with f (g <$> l) l = (λ x, f (g x) x) <$> l.
Proof. induction l as [|x l IH]; simpl; [done | by f_equal]. Qed.

Lemma zip_with_replicate_const {A B C} (f : A → B → C) (x : A) (l : list B) n :
  n = length l → zip_with f (replicate n x) l = f x <$> l.
Proof.
  intros ->. induction l as [|y l IH]; simpl; [done | by f_equal].
Qed.

Lemma zip4_fmap_last {A B} (f : Z → Z → Z → Z → B) (c : list rgb8) (l : list A)
    (a : A → Z) :
  zip4 f (rgb_r <$> c) (rgb_g <$> c) (rgb_b <$> c) (a <$> l)
  = zip_with (λ p x, f (rgb_r p) (rgb_g p) (rgb_b p) (a x)) c l.
Proof.
  unfold zip4. rewrite zip3_fmap.
  revert l. induction c as [|p c IH]; intros [|x l]; simpl; try done.
  by f_equal.
Qed.

Lemma size_eqb_refl s : size_eqb s s = true.
Proof. unfold size_eqb. by apply bool_decide_eq_true. Qed.

(** ** Arithmetic of the compositing loop *)

Lemma u32_small n : 0 <= n < 2 ^ 32 → u32 n = n.
Proof. intros. unfold u32. by apply Z.mod_small. Qed.

Lemma to_uint8_small n : 0 <= n <= 255 → to_uint8 n = n.
Proof. intros. unfold to_uint8. apply Z.mod_small. lia. Qed.

Lemma to_uint8_range n : is_uint8 (to_uint8 n).
Proof. unfold is_uint8, to_uint8. pose proof (Z.mod_pos_bound n 256). lia. Qed.

(** Division by 255 through shifts: bounds on the quotient. *)
Lemma SHIFTFORDIV255_bounds a :
  0 <= a <= 2 ^ 23 →
  let q := SHIFTFORDIV255 a in
  255 * q <= a ∧ a - 384 < 255 * q.
Proof.
  intros Ha q. subst q. unfold SHIFTFORDIV255.
  rewrite !Z.shiftr_div_pow2 by lia. change (2 ^ 8) with 256.
  change (2 ^ 23) with 8388608 in Ha.
  assert (0 <= a / 256 <= a) as Hu.
  { split; [apply Z.div_pos; lia|]. apply Z.div_le_upper_bound; lia. }
  rewrite (u32_small (a / 256 + a)) by (change (2 ^ 32) with 4294967296; lia).
  assert (0 <= (a / 256 + a) / 256 <= a / 256 + a) as Hq.
  { split; [apply Z.div_pos; lia|]. apply Z.div_le_upper_bound; lia. }
  rewrite u32_small by (change (2 ^ 32) with 4294967296; lia).
  pose proof (Z.div_mod a 256 ltac:(lia)) as E1.
  pose proof (Z.mod_pos_bound a 256 ltac:(lia)) as B1.
  pose proof (Z.div_mod (a / 256 + a) 256 ltac:(lia)) as E2.
  pose proof (Z.mod_pos_bound (a / 256 + a) 256 ltac:(lia)) as B2.
  lia.
Qed.

(** One colour channel of the compositing loop, with the wrap-arounds
    discharged: bounds on the stored value in terms of [tmp]. *)
Lemma composite_chan_bounds c1 c2 s d :
  0 <= c1 <= 32640 → c2 = 32640 - c1 → is_uint8 s → is_uint8 d →
  let out := composite_chan c1 c2 s d in
  let t := s * c1 + d * c2 in
  0 <= out <= 255 ∧ t - 16385 < 32640 * out <= t + 16384.
Proof.
  unfold is_uint8. intros Hc1 -> Hs Hd. cbv zeta. unfold composite_chan.
  change (128 ≪ PRECISION_BITS) with 16384. unfold PRECISION_BITS.
  set (t := s * c1 + d * (32640 - c1)).
  assert (0 <= t <= 255 * 32640) as Ht by (subst t; nia).
  rewrite (u32_small t) by (change (2 ^ 32) with 4294967296; lia).
  rewrite (u32_small (t + 16384)) by (change (2 ^ 32) with 4294967296; lia).
  destruct (SHIFTFORDIV255_bounds (t + 16384)) as [Hq1 Hq2].
  { change (2 ^ 23) with 8388608. lia. }
  set (q := SHIFTFORDIV255 (t + 16384)) in *.
  rewrite Z.shiftr_div_pow2 by lia. change (2 ^ 7) with 128.
  pose proof (Z.div_mod q 128 ltac:(lia)) as E.
  pose proof (Z.mod_pos_bound q 128 ltac:(lia)) as B.
  assert (0 <= q / 128 <= 255) as Ho by lia.
  rewrite to_uint8_small by lia. lia.
Qed.

Section Over.
Variables sa da : Z.
Hypothesis Hsa : 1 <= sa <= 255.
Hypothesis Hda : 0 <= da <= 255.

Let A := sa * 255 + da * (255 - sa).
Let c1 := sa * 255 * 255 * 128 / A.

Lemma over_A_range : 255 <= A <= 65025.
Proof. subst A. nia. Qed.

Lemma over_coef1_range : 0 <= c1 <= 32640 ∧ 0 <= sa * 255 * 32640 - A * c1 < A.
Proof.
  pose proof over_A_range as HA. subst c1.
  pose proof (Z.div_mod (sa * 255 * 255 * 128) A ltac:(lia)) as E.
  pose proof (Z.mod_pos_bound (sa * 255 * 255 * 128) A ltac:(lia)) as B.
  set (q := sa * 255 * 255 * 128 / A) in *.
  assert (sa * 255 <= A) by (subst A; nia).
  split; [|lia].
  split; [apply Z.div_pos; lia|].
  apply Z.div_le_upper_bound; [lia|]. nia.
Qed.

Lemma over_colour s d :
  is_uint8 s → is_uint8 d →
  let out := composite_chan c1 (32640 - c1) s d in
  0 <= out <= 255 ∧
  Z.abs (out * A - (s * (sa * 255) + d * (da * (255 - sa)))) < A.
Proof.
  intros Hs Hd out.
  pose proof over_A_range as HA.
  destruct over_coef1_range as [Hc Hr].
  destruct (composite_chan_bounds c1 (32640 - c1) s d Hc eq_refl Hs Hd)
    as [Ho Ht]. fold out in Ho, Ht.
  split; [done|].
  unfold is_uint8 in *.
  set (r := sa * 255 * 32640 - A * c1) in *.
  set (t := s * c1 + d * (32640 - c1)) in *.
  assert (A * t = 32640 * (s * (sa * 255) + d * (A - sa * 255)) - (s - d) * r)
    as Et by (subst t r; ring).
  assert (da * (255 - sa) = A - sa * 255) as -> by (subst A; ring).
  set (Nn := s * (sa * 255) + d * (A - sa * 255)) in *.
  assert (- (255 * A) < (s - d) * r < 255 * A) as Hsr by nia.
  assert (A * (t - 16385) < A * (32640 * out)) by (apply Z.mul_lt_mono_pos_l; lia).
  assert (A * (32640 * out) <= A * (t + 16384)) by (apply Z.mul_le_mono_nonneg_l; lia).
  lia.
Qed.
End Over.

(** The alpha of the compositing loop: division by 255 rounded to nearest. *)
Lemma SHIFTFORDIV255_round A :
  0 <= A <= 65025 →
  let q := to_uint8 (SHIFTFORDIV255 (u32 (A + 128))) in
  0 <= q <= 255 ∧ Z.abs (255 * q - A) <= 127.
Proof.
  intros HA. cbv zeta. unfold SHIFTFORDIV255, u32, to_uint8.
  change (2 ^ 32) with 4294967296. rewrite !Z.shiftr_div_pow2 by lia.
  change (2 ^ 8) with 256.
  rewrite (Z.mod_small (A + 128)) by lia.
  pose proof (Z.div_mod (A + 128) 256 ltac:(lia)) as E1.
  pose proof (Z.mod_pos_bound (A + 128) 256 ltac:(lia)) as B1.
  set (u := (A + 128) / 256) in *. set (r := (A + 128) mod 256) in *.
  assert (0 <= u <= 254) as Hu by lia.
  rewrite (Z.mod_small (u + (A + 128))) by lia.
  pose proof (Z.div_mod (u + (A + 128)) 256 ltac:(lia)) as E2.
  pose proof (Z.mod_pos_bound (u + (A + 128)) 256 ltac:(lia)) as B2.
  set (q := (u + (A + 128)) / 256) in *. set (r2 := (u + (A + 128)) mod 256) in *.
  assert (0 <= q <= 255) as Hq by lia.
  rewrite (Z.mod_small q) by lia. rewrite (Z.mod_small q) by lia.
  lia.
Qed.

Lemma composite_px_unfold dst src :
  rgba_ok dst → rgba_ok src → rgba_a src ≠ 0 →
  let A := over_alpha dst src in
  let c1 := rgba_a src * 255 * 255 * 128 / A in
  composite_px dst src =
    RGBA8 (composite_chan c1 (32640 - c1) (rgba_r src) (rgba_r dst))
          (composite_chan c1 (32640 - c1) (rgba_g src) (rgba_g dst))
          (composite_chan c1 (32640 - c1) (rgba_b src) (rgba_b dst))
          (to_uint8 (SHIFTFORDIV255 (u32 (A + 128)))).
Proof.
  intros (_ & _ & _ & Hda) (_ & _ & _ & Hsa) Hnz. cbv zeta.
  unfold is_uint8 in *. unfold composite_px, over_alpha.
  destruct (Z.eqb_spec (rgba_a src) 0) as [|_]; [done|].
  change (1 ≪ PRECISION_BITS) with 128.
  set (sa := rgba_a src) in *. set (da := rgba_a dst) in *.
  assert (1 <= sa <= 255) as Hsa' by lia.
  pose proof (over_A_range sa da Hsa' Hda) as HA.
  destruct (over_coef1_range sa da Hsa' Hda) as [Hc _].
  rewrite (u32_small (da * (255 - sa))) by (change (2 ^ 32) with 4294967296; nia).
  rewrite (u32_small (sa * 255 + _)) by (change (2 ^ 32) with 4294967296; lia).
  rewrite (u32_small (_ / _)) by (change (2 ^ 32) with 4294967296; lia).
  rewrite (u32_small (255 * 128 - _)) by (change (2 ^ 32) with 4294967296; lia).
  reflexivity.
Qed.

Lemma composite_px_straight_over dst src :
  rgba_ok dst → rgba_ok src →
  straight_over dst src (composite_px dst src) ∧ rgba_ok (composite_px dst src).
Proof.
  intros Hd Hs. unfold straight_over.
  destruct (decide (rgba_a src = 0)) as [Hz|Hnz].
  { unfold composite_px. rewrite Hz. simpl. done. }
  rewrite (composite_px_unfold dst src Hd Hs Hnz). cbv zeta. simpl.
  destruct Hd as (Hdr & Hdg & Hdb & Hda), Hs as (Hsr & Hsg & Hsb & Hsa).
  assert (1 <= rgba_a src <= 255) as Hsa' by (unfold is_uint8 in *; lia).
  pose proof (over_colour _ _ Hsa' Hda _ _ Hsr Hdr) as [? ?].
  pose proof (over_colour _ _ Hsa' Hda _ _ Hsg Hdg) as [? ?].
  pose proof (over_colour _ _ Hsa' Hda _ _ Hsb Hdb) as [? ?].
  pose proof (over_A_range _ _ Hsa' Hda) as HA.
  pose proof (SHIFTFORDIV255_round
    (rgba_a src * 255 + rgba_a dst * (255 - rgba_a src)) ltac:(lia)) as Hal.
  cbv zeta in Hal. destruct Hal as [_ Hal].
  unfold over_alpha, over_premult, rgba_ok, is_uint8. simpl.
  pose proof (to_uint8_range (SHIFTFORDIV255
    (u32 (rgba_a src * 255 + rgba_a dst * (255 - rgba_a src) + 128)))) as Hr.
  unfold is_uint8 in Hr.
  repeat split; try done; try lia.
Qed.

Lemma composite_px_opaque g e :
  rgba_ok g → rgba_ok e → rgba_a e = 255 → composite_px g e = e.
Proof.
  intros Hg He Ha.
  destruct (composite_px_straight_over g e Hg He) as [Hso Hok].
  unfold straight_over in Hso. rewrite Ha in Hso.
  destruct (decide (255 = 0)) as [|_]; [done|]. cbv zeta in Hso.
  unfold over_alpha, over_premult in Hso. rewrite !Ha in Hso.
  destruct Hok as (Hr & Hgg & Hb & Hal).
  destruct He as (Her & Heg & Heb & _). unfold is_uint8 in *.
  destruct (composite_px g e) as [r' g' b' a'], e as [er eg eb ea].
  cbn [rgba_r rgba_g rgba_b rgba_a] in *. subst ea.
  f_equal; lia.
Qed.

Lemma composite_px_alpha_le g e :
  rgba_ok g → rgba_ok e → rgba_a e <= rgba_a (composite_px g e).
Proof.
  intros Hg He.
  destruct (composite_px_straight_over g e Hg He) as [Hso Hok].
  unfold straight_over in Hso.
  destruct (decide (rgba_a e = 0)) as [Hz|Hnz].
  - rewrite Hso, Hz. by destruct Hg as (_ & _ & _ & [? ?]).
  - destruct Hso as [Hal _]. unfold over_alpha in Hal.
    destruct Hg as (_ & _ & _ & Hga), He as (_ & _ & _ & Hea).
    unfold is_uint8 in *. nia.
Qed.

(** ** The blend loop at the brightness factor of the script *)

Lemma brightness_floor :
  all_uint8 (λ v, scale_from f32_brightness 0 v =? Z.min 255 (14 * v / 10)) = true.
Proof. vm_compute. reflexivity. Qed.

(** ** Image-level facts *)

Lemma blend_chan_range f x y : is_uint8 (blend_chan f x y).
Proof.
  unfold blend_chan, is_uint8, to_uint8.
  pose proof (Z.mod_pos_bound (trunc (blend_temp f x y)) 256).
  repeat case_match; lia.
Qed.

Lemma blend_rgb_ok f p q : rgb_ok (blend_rgb f p q).
Proof. repeat split; apply blend_chan_range. Qed.

(** *** Histogram *)

Lemma sumZ_nonneg l : Forall (λ x, 0 <= x) l → 0 <= sumZ l.
Proof. unfold sumZ. induction 1; simpl; lia. Qed.

Lemma sumZ_lookup_le l i v :
  Forall (λ x, 0 <= x) l → l !! i = Some v → v <= sumZ l.
Proof.
  intros Hl. revert i. induction Hl as [|x l Hx Hl IH]; intros [|i] Hi; try done.
  - injection Hi as ->. pose proof (sumZ_nonneg l Hl). unfold sumZ in *. simpl. lia.
  - specialize (IH i Hi). unfold sumZ in *. simpl. lia.
Qed.

(** A non-empty image has a non-empty histogram. *)
Lemma L24_range p : rgb_ok p → is_uint8 (L24 p).
Proof.
  unfold rgb_ok, is_uint8, L24. intros (? & ? & ?).
  rewrite Z.shiftr_div_pow2 by lia. change (2 ^ 16) with 65536.
  split; [apply Z.div_pos; lia|].
  apply Z.lt_succ_r. apply Z.div_lt_upper_bound; lia.
Qed.

Lemma L24_grey v : is_uint8 v → L24 (grey v) = v.
Proof.
  unfold is_uint8, L24, grey. intros ?. simpl.
  rewrite Z.shiftr_div_pow2 by lia. change (2 ^ 16) with 65536.
  symmetry. apply Z.div_unique with (r := 32768); lia.
Qed.

Lemma merge_split_RGB img :
  merge_RGB (getband rgba_r img) (getband rgba_g img) (getband rgba_b img)
  = Ok (rgb_part img).
Proof.
  unfold merge_RGB, getband, rgb_part. cbn [im_size im_data].
  rewrite size_eqb_refl. cbn [negb orb]. by rewrite zip3_fmap.
Qed.

(** A non-trivial factor makes [blend] run its pixel loop. *)
Lemma blend_loop im1 im2 alpha :
  im_size im1 = im_size im2 →
  SFeqb (Float32.of_double alpha) Float32.zero = false →
  SFeqb (Float32.of_double alpha) Float32.one = false →
  blend im1 im2 alpha =
    Ok (mkImage (im_size im2)
          (zip_with (blend_rgb (Float32.of_double alpha)) (im_data im1) (im_data im2))).
Proof.
  intros Hsz H0 H1. unfold blend. rewrite Hsz, size_eqb_refl. cbn [negb].
  cbv zeta. by rewrite H0, H1.
Qed.

Lemma enhance_Brightness im :
  length (im_data im) = npixels (im_size im) →
  (Brightness im ≫= λ e, enhance e BRIGHTNESS)
  = Ok (mkImage (im_size im) (bright_px <$> im_data im)).
Proof.
  intros Hlen. unfold Brightness, enhance. cbn [mbind result_bind enh_image enh_degenerate].
  rewrite blend_loop; [| done | by vm_compute | by vm_compute].
  unfold new_RGB_black. cbn [im_data].
  rewrite zip_with_replicate_const by (symmetry; exact Hlen).
  reflexivity.
Qed.

Lemma stat_count_pos (im : Image rgb8) :
  Forall rgb_ok (im_data im) → im_data im ≠ [] →
  stat_count (histogram (convert_RGB_L im)) ≠ 0.
Proof.
  intros Hok Hne. unfold stat_count, histogram, convert_RGB_L. cbn [im_data].
  destruct (im_data im) as [|p l]; [done|]. clear Hne.
  apply Forall_cons in Hok as [Hp _].
  pose proof (L24_range p Hp) as Hr. unfold is_uint8 in Hr.
  set (data := L24 <$> p :: l).
  set (bin := λ j : Z, Z.of_nat (length (filter (λ v, v = j) data))).
  assert (1 <= bin (L24 p)) as Hbin.
  { unfold bin, data. rewrite fmap_cons, filter_cons.
    destruct (decide (L24 p = L24 p)); [|done]. simpl. lia. }
  assert (bin (L24 p) <= sumZ (bin <$> seqZ 0 256)); [|lia].
  apply (sumZ_lookup_le _ (Z.to_nat (L24 p))).
  - apply Forall_fmap, Forall_true. intros j. unfold bin. simpl. lia.
  - rewrite list_lookup_fmap, lookup_seqZ_lt by lia. simpl. f_equal. f_equal. lia.
Qed.

Lemma stat_mean_Ok (im : Image rgb8) :
  Forall rgb_ok (im_data im) → im_data im ≠ [] →
  stat_mean (convert_RGB_L im)
  = Ok (Float64.div (Float64.of_Z (stat_sum (histogram (convert_RGB_L im))))
                    (Float64.of_Z (stat_count (histogram (convert_RGB_L im))))).
Proof.
  intros Hok Hne. unfold stat_mean. cbv zeta.
  pose proof (stat_count_pos im Hok Hne) as Hc.
  apply Z.eqb_neq in Hc. rewrite Hc. reflexivity.
Qed.

Lemma CLIP8_range v : is_uint8 (CLIP8 v).
Proof. unfold CLIP8, is_uint8. repeat case_match; lia. Qed.

Lemma enhance_Contrast im :
  well_formed rgb_ok im → nonempty im →
  (Contrast im ≫= λ e, enhance e CONTRAST)
  = Ok (mkImage (im_size im) (contrast_px (mean_level im) <$> im_data im)).
Proof.
  intros [Hlen Hok] Hne. unfold Contrast.
  rewrite stat_mean_Ok; [|done|].
  2:{ unfold nonempty in Hne. rewrite <- Hlen in Hne.
      destruct (im_data im); [simpl in Hne; lia | done]. }
  cbn [mbind result_bind]. unfold enhance. cbn [enh_image enh_degenerate].
  rewrite blend_loop; [| done | by vm_compute | by vm_compute].
  unfold convert_L_RGB, new_L. cbn [im_data].
  rewrite fmap_replicate, zip_with_replicate_const by (symmetry; exact Hlen).
  unfold contrast_px, mean_level, f32_contrast, grey. cbv zeta.
  reflexivity.
Qed.

Lemma enhance_Color im :
  (Color im ≫= λ e, enhance e SATURATION)
  = Ok (mkImage (im_size im) (color_px <$> im_data im)).
Proof.
  unfold Color, enhance. cbn [mbind result_bind enh_image enh_degenerate].
  rewrite blend_loop; [| done | by vm_compute | by vm_compute].
  f_equal. f_equal. unfold convert_L_RGB, convert_RGB_L. cbn [im_data].
  rewrite <- list_fmap_compose. apply zip_with_fmap_diag.
Qed.

Lemma bright_px_ok p : rgb_ok (bright_px p).
Proof. apply blend_rgb_ok. Qed.
Lemma contrast_px_ok m p : rgb_ok (contrast_px m p).
Proof. apply blend_rgb_ok. Qed.
Lemma color_px_ok p : rgb_ok (color_px p).
Proof. apply blend_rgb_ok. Qed.

Lemma merge_split_RGBA (col : Image rgb8) (img : Image rgba8) :
  im_size col = im_size img →
  merge_RGBA (getband rgb_r col) (getband rgb_g col) (getband rgb_b col)
             (getband rgba_a img)
  = Ok (mkImage (im_size img) (zip_with attach_alpha (im_data col) (im_data img))).
Proof.
  intros Hsz. unfold merge_RGBA, getband. cbn [im_size im_data].
  rewrite Hsz, !size_eqb_refl. cbn [negb orb].
  by rewrite zip4_fmap_last.
Qed.

Section Frame.
Variable GaussianBlur : Z → Image rgba8 → Image rgba8.
Hypothesis blur_ok : blur_contract GaussianBlur.

Lemma brightened_data img :
  im_data (v_brightened (frame_of GaussianBlur img))
  = (λ x, attach_alpha
            (color_px (contrast_px (mean_level (v_bright (frame_of GaussianBlur img)))
                                   (bright_px (rgb_of x)))) x) <$> im_data img.
Proof.
  unfold frame_of. cbn [v_brightened v_bright im_data rgb_part].
  rewrite <- !list_fmap_compose. apply zip_with_fmap_diag.
Qed.

Lemma brightened_wf img :
  well_formed rgba_ok img → well_formed rgba_ok (v_brightened (frame_of GaussianBlur img)).
Proof.
  intros [Hlen Hok]. split.
  - rewrite brightened_data, length_fmap. exact Hlen.
  - rewrite brightened_data. apply Forall_fmap.
    eapply Forall_impl; [exact Hok|]. intros x (_ & _ & _ & Ha).
    destruct (color_px_ok (contrast_px (mean_level (v_bright (frame_of GaussianBlur img)))
                                       (bright_px (rgb_of x)))) as (? & ? & ?).
    unfold compose, rgba_ok, attach_alpha, with_alpha.
    cbn [rgba_r rgba_g rgba_b rgba_a]. unfold is_uint8 in *. repeat split; lia.
Qed.

Lemma process_frame img :
  well_formed rgba_ok img → nonempty img →
  process GaussianBlur img = Ok (frame_of GaussianBlur img).
Proof.
  intros Hwf Hne. pose proof Hwf as [Hlen Hok].
  unfold process, process_with, split_RGBA. cbv beta iota zeta.
  rewrite merge_split_RGB. cbn [mbind result_bind].
  (* Brightness *)
  pose proof (enhance_Brightness (rgb_part img)) as E1.
  destruct (Brightness (rgb_part img)) as [e1|] eqn:HB;
    cbn [mbind result_bind] in E1 |- *.
  2:{ discriminate E1. unfold rgb_part. cbn [im_data im_size].
      by rewrite length_fmap. }
  rewrite E1 by (unfold rgb_part; cbn [im_data im_size]; by rewrite length_fmap).
  cbn [mbind result_bind im_size rgb_part].
  set (bright := mkImage (im_size img) (bright_px <$> im_data (rgb_part img))).
  assert (well_formed rgb_ok bright ∧ nonempty bright) as [Hb Hbne].
  { split; [split|]; unfold bright, rgb_part; cbn [im_data im_size].
    - by rewrite !length_fmap.
    - apply Forall_fmap, Forall_true. intros p. apply bright_px_ok.
    - exact Hne. }
  (* Contrast *)
  pose proof (enhance_Contrast bright Hb Hbne) as E2.
  destruct (Contrast bright) as [e2|] eqn:HC;
    cbn [mbind result_bind] in E2 |- *; [|discriminate E2].
  rewrite E2. cbn [mbind result_bind].
  set (contrast := mkImage (im_size bright)
                     (contrast_px (mean_level bright) <$> im_data bright)).
  (* Color *)
  pose proof (enhance_Color contrast) as E3.
  destruct (Color contrast) as [e3|] eqn:HCo;
    cbn [mbind result_bind] in E3 |- *; [|discriminate E3].
  rewrite E3. cbn [mbind result_bind]. unfold split_RGB. cbv beta iota zeta.
  rewrite merge_split_RGBA by reflexivity. cbn [mbind result_bind].
  set (color := mkImage (im_size contrast) (color_px <$> im_data contrast)).
  set (brightened := mkImage (im_size img)
                       (zip_with attach_alpha (im_data color) (im_data img))).
  destruct (blur_ok GLOW_RADIUS brightened) as [Hgs _].
  { apply (brightened_wf img Hwf). }
  unfold alpha_composite. rewrite Hgs, size_eqb_refl.
  cbn [negb mbind result_bind mret result_ret].
  reflexivity.
Qed.
End Frame.

(** ** Binary floating point: what [binary_round_aux] computes *)

Lemma digits2_pos_size p : digits2_pos p = Pos.size p.
Proof. induction p as [p IH|p IH|]; simpl; by rewrite ?IH. Qed.

Lemma Zdigits2_log2 m : 0 < m → Zdigits2 m = Z.log2 m + 1.
Proof.
  destruct m as [|p|p]; try lia. intros _. simpl. rewrite digits2_pos_size.
  destruct p; simpl; lia.
Qed.

Lemma iter_pos_nat {A} (f : A → A) p x :
  SpecFloat.iter_pos f p x = @Nat.iter (Pos.to_nat p) A f x.
Proof.
  revert x. induction p as [p IH|p IH|]; intros x; cbn [SpecFloat.iter_pos].
  - rewrite !IH, Pos2Nat.inj_xI.
    replace (S (2 * Pos.to_nat p)) with (Pos.to_nat p + S (Pos.to_nat p))%nat by lia.
    rewrite Nat.iter_add, Nat.iter_succ_r. reflexivity.
  - rewrite !IH, Pos2Nat.inj_xO.
    replace (2 * Pos.to_nat p)%nat with (Pos.to_nat p + Pos.to_nat p)%nat by lia.
    by rewrite Nat.iter_add.
  - reflexivity.
Qed.

Lemma shr_1_spec m r s :
  0 <= m → shr_1 (Build_shr_record m r s) = Build_shr_record (m / 2) (Z.odd m) (r || s).
Proof.
  intros Hm. rewrite <- Z.div2_div.
  destruct m as [|[p|p|]|p]; try lia; reflexivity.
Qed.

Lemma mod_pow2_succ m n :
  0 <= m → 0 <= n →
  m mod 2 ^ (n + 1) = m mod 2 ^ n + 2 ^ n * (if Z.odd (m / 2 ^ n) then 1 else 0).
Proof.
  intros Hm Hn. rewrite Z.pow_add_r, Z.pow_1_r by lia.
  rewrite Z.rem_mul_r by lia. f_equal. f_equal.
  rewrite Zmod_odd. reflexivity.
Qed.

Lemma iter_shr_1 n m r s :
  0 <= m →
  @Nat.iter (S n) shr_record shr_1 (Build_shr_record m r s)
  = Build_shr_record (m / 2 ^ Z.of_nat (S n)) (Z.odd (m / 2 ^ Z.of_nat n))
      (r || s || negb (m mod 2 ^ Z.of_nat n =? 0)).
Proof.
  intros Hm. induction n as [|n IH].
  - cbn [Nat.iter nat_rect]. rewrite shr_1_spec by done. change (Z.of_nat 1) with 1.
    change (Z.of_nat 0) with 0. rewrite Z.pow_1_r, Z.pow_0_r, Z.div_1_r, Z.mod_1_r.
    simpl. by rewrite orb_false_r.
  - rewrite Nat.iter_succ, IH.
    rewrite shr_1_spec by (apply Z.div_pos; lia).
    rewrite Z.div_div by lia.
    replace (2 ^ Z.of_nat (S n) * 2) with (2 ^ Z.of_nat (S (S n)))
      by (rewrite (Nat2Z.inj_succ (S n)), Z.pow_succ_r; lia).
    f_equal.
    rewrite (Nat2Z.inj_succ n), <- Z.add_1_r, (mod_pow2_succ m (Z.of_nat n)) by lia.
    pose proof (Z.mod_pos_bound m (2 ^ Z.of_nat n) ltac:(lia)).
    destruct (Z.odd (m / 2 ^ Z.of_nat n)).
    + destruct (Z.eqb_spec (m mod 2 ^ Z.of_nat n + 2 ^ Z.of_nat n * 1) 0); [lia|].
      by destruct r, s, (m mod 2 ^ Z.of_nat n =? 0).
    + rewrite Z.mul_0_r, Z.add_0_r.
      by destruct r, s, (m mod 2 ^ Z.of_nat n =? 0).
Qed.

Lemma shr_rne m e p :
  0 <= m →
  let mrs := (shr (Build_shr_record m false false) e (Z.pos p)).1 in
  round_nearest_even (shr_m mrs) (loc_of_shr_record mrs) = rne_shift m (Z.pos p).
Proof.
  intros Hm. cbn [shr fst]. rewrite iter_pos_nat.
  destruct (Pos2Nat.is_succ p) as [k Hk]. rewrite Hk, iter_shr_1 by done.
  assert (Z.pos p = Z.of_nat k + 1) as -> by lia.
  rewrite Nat2Z.inj_succ, <- Z.add_1_r. cbn [orb shr_m].
  unfold rne_shift. rewrite Z.add_simpl_r, (mod_pow2_succ m (Z.of_nat k)) by lia.
  pose proof (Z.mod_pos_bound m (2 ^ Z.of_nat k) ltac:(lia)) as Hb.
  set (q := m / 2 ^ (Z.of_nat k + 1)).
  set (low := m mod 2 ^ Z.of_nat k) in *. set (half := 2 ^ Z.of_nat k) in *.
  destruct (Z.odd (m / half)).
  - rewrite Z.mul_1_r.
    destruct (Z.ltb_spec (low + half) half) as [|_]; [lia|].
    destruct (Z.eqb_spec low 0) as [Hz|Hne]; cbn [negb loc_of_shr_record round_nearest_even].
    + by destruct (Z.ltb_spec half (low + half)) as [|_]; [lia|].
    + by destruct (Z.ltb_spec half (low + half)) as [_|]; [|lia].
  - rewrite Z.mul_0_r, Z.add_0_r.
    destruct (Z.ltb_spec low half) as [_|]; [|lia].
    by destruct (low =? 0).
Qed.

Lemma rne_shift_bounds m n :
  0 <= m → 0 < n → m / 2 ^ n <= rne_shift m n <= m / 2 ^ n + 1.
Proof. intros _ _. unfold rne_shift. repeat case_match; lia. Qed.

Lemma rne_shift_exact a n : 0 < n → rne_shift (a * 2 ^ n) n = a.
Proof.
  intros Hn. unfold rne_shift.
  rewrite Z.mod_mul, Z.div_mul by lia.
  assert (0 < 2 ^ (n - 1)) by (apply Z.pow_pos_nonneg; lia).
  by destruct (Z.ltb_spec 0 (2 ^ (n - 1))); [|lia].
Qed.

Section Round.
Variables prec emax : Z.
Hypothesis Hprec : 0 < prec.

Local Abbreviation fexp := (SpecFloat.fexp prec emax).
Local Abbreviation emin := (SpecFloat.emin prec emax).

Lemma fexp_ge_emin e : emin <= fexp e.
Proof. unfold SpecFloat.fexp. lia. Qed.

Lemma shr_nonpos mrs e n : n <= 0 → shr mrs e n = (mrs, e).
Proof. intros Hn. unfold shr. destruct n; [done | lia | done]. Qed.

Lemma rne_shift_lt_pow mx n :
  0 < mx → 0 < n → Z.log2 mx + 1 - n <= prec → rne_shift mx n <= 2 ^ prec.
Proof.
  intros Hmx Hn Hd.
  pose proof (rne_shift_bounds mx n ltac:(lia) Hn) as [_ Hq].
  assert (mx / 2 ^ n < 2 ^ prec); [|lia].
  apply Z.div_lt_upper_bound; [lia|].
  rewrite <- Z.pow_add_r by lia.
  apply Z.log2_lt_pow2; lia.
Qed.

Lemma binary_round_aux_spec s mx ex :
  0 < mx →
  binary_round_aux prec emax s mx ex loc_Exact = pack prec emax s (round_mant prec emax mx ex).
Proof.
  intros Hmx. unfold binary_round_aux, shr_fexp, round_mant.
  rewrite (Zdigits2_log2 mx Hmx). cbn [shr_record_of_loc].
  set (E := fexp (Z.log2 mx + 1 + ex)).
  pose proof (fexp_ge_emin (Z.log2 mx + 1 + ex)) as HE. fold E in HE.
  destruct (Z.leb_spec E ex) as [Hle|Hgt].
  - rewrite shr_nonpos by lia. cbn [shr_m loc_of_shr_record round_nearest_even].
    rewrite (Zdigits2_log2 mx Hmx). fold E. cbn [shr_record_of_loc].
    rewrite shr_nonpos by lia. reflexivity.
  - destruct (E - ex) as [|p|p] eqn:Hn; try lia.
    pose proof (shr_rne mx ex p ltac:(lia)) as Hr. cbv zeta in Hr.
    destruct (shr (Build_shr_record mx false false) ex (Z.pos p)) as [mrs' e'] eqn:Hshr.
    assert (e' = E) as -> by (cbn [shr] in Hshr; injection Hshr; lia).
    cbn [fst] in Hr. rewrite Hr. clear Hr Hshr mrs'.
    set (q := rne_shift mx (Z.pos p)).
    assert (0 <= q <= 2 ^ prec) as Hq.
    { split.
      - pose proof (rne_shift_bounds mx (Z.pos p) ltac:(lia) ltac:(lia)) as [Hlo _].
        fold q in Hlo. pose proof (Z.div_pos mx (2 ^ Z.pos p) ltac:(lia) ltac:(lia)). lia.
      - apply rne_shift_lt_pow; [lia | lia |]. unfold E, SpecFloat.fexp in Hn. lia. }
    destruct (Z.eqb_spec q (2 ^ prec)) as [Heq|Hne].
    + rewrite Zdigits2_log2 by lia. rewrite Heq, Z.log2_pow2 by lia.
      replace (SpecFloat.fexp prec emax (prec + 1 + E) - E) with 1
        by (unfold SpecFloat.fexp; lia).
      cbn [shr shr_record_of_loc SpecFloat.iter_pos].
      rewrite shr_1_spec by lia. cbn [shr_m]. unfold pack. cbn [fst snd].
      replace (2 ^ prec / 2) with (2 ^ (prec - 1)).
      2:{ replace prec with (prec - 1 + 1) at 2 by lia.
          rewrite Z.pow_add_r, Z.pow_1_r, Z.div_mul by lia. reflexivity. }
      reflexivity.
    + destruct (Z.eq_dec q 0) as [Hz|Hnz].
      * rewrite Hz. cbn [Zdigits2 shr_record_of_loc].
        rewrite shr_nonpos by (unfold SpecFloat.fexp; lia). reflexivity.
      * rewrite Zdigits2_log2 by lia. cbn [shr_record_of_loc].
        rewrite shr_nonpos; [reflexivity|].
        assert (Z.log2 q < prec) by (apply Z.log2_lt_pow2; lia).
        unfold SpecFloat.fexp. lia.
Qed.

Lemma round_mant_canonical mx ex :
  0 < mx → ex <= fexp (Z.log2 mx + 1 + ex) →
  0 < (round_mant prec emax mx ex).1 →
  canonical_at prec emax (round_mant prec emax mx ex).1 (round_mant prec emax mx ex).2.
Proof.
  intros Hmx Hex. unfold round_mant, canonical_at.
  set (E := fexp (Z.log2 mx + 1 + ex)) in *.
  pose proof (fexp_ge_emin (Z.log2 mx + 1 + ex)) as HE. fold E in HE.
  destruct (Z.leb_spec E ex) as [Hle|Hgt]; cbn [fst snd].
  { intros _. fold E. lia. }
  set (q := rne_shift mx (E - ex)).
  assert (q <= 2 ^ prec) as Hq.
  { apply rne_shift_lt_pow; [lia | lia |]. unfold E, SpecFloat.fexp. lia. }
  destruct (Z.eqb_spec q (2 ^ prec)) as [Heq|Hne]; cbn [fst snd].
  { intros _. rewrite Z.log2_pow2 by lia. unfold SpecFloat.fexp. lia. }
  intros Hpos.
  assert (Z.log2 q < prec) by (apply Z.log2_lt_pow2; lia).
  destruct (Z.eq_dec E emin) as [Hemin|Hnemin].
  { unfold SpecFloat.fexp. fold emin. lia. }
  assert (E = Z.log2 mx + 1 + ex - prec) as HEd
    by (unfold E, SpecFloat.fexp in *; fold emin in *; lia).
  assert (prec - 1 <= Z.log2 q); [|unfold SpecFloat.fexp; fold emin; lia].
  apply Z.log2_le_pow2; [lia|].
  pose proof (rne_shift_bounds mx (E - ex) ltac:(lia) ltac:(lia)) as [Hlo _].
  fold q in Hlo. etrans; [|exact Hlo].
  apply Z.div_le_lower_bound; [lia|].
  rewrite <- Z.pow_add_r by lia.
  replace (E - ex + (prec - 1)) with (Z.log2 mx) by lia.
  apply Z.log2_spec. lia.
Qed.
End Round.

(** ** Rounding as a function on scaled integers *)

Lemma rne_shift_mono m1 m2 n :
  0 <= m1 <= m2 → 0 < n → rne_shift m1 n <= rne_shift m2 n.
Proof.
  intros Hm Hn.
  pose proof (rne_shift_bounds m1 n ltac:(lia) Hn) as H1.
  pose proof (rne_shift_bounds m2 n ltac:(lia) Hn) as H2.
  assert (m1 / 2 ^ n <= m2 / 2 ^ n) as Hq by (apply Z.div_le_mono; lia).
  destruct (Z.eq_dec (m1 / 2 ^ n) (m2 / 2 ^ n)) as [Heq|Hne]; [|lia].
  assert (m1 mod 2 ^ n <= m2 mod 2 ^ n) as Hrem.
  { pose proof (Z.div_mod m1 (2 ^ n) ltac:(lia)).
    pose proof (Z.div_mod m2 (2 ^ n) ltac:(lia)). nia. }
  unfold rne_shift. rewrite <- Heq. clear H1 H2.
  repeat case_match; lia.
Qed.

Lemma rne_shift_scale m n k :
  0 < n → 0 <= k → rne_shift (m * 2 ^ k) (n + k) = rne_shift m n.
Proof.
  intros Hn Hk. unfold rne_shift.
  assert (0 < 2 ^ k) by (apply Z.pow_pos_nonneg; lia).
  assert (0 < 2 ^ n) by (apply Z.pow_pos_nonneg; lia).
  assert (0 < 2 ^ (n - 1)) by (apply Z.pow_pos_nonneg; lia).
  rewrite (Z.pow_add_r 2 n k) by lia.
  rewrite Z.div_mul_cancel_r, Z.mul_mod_distr_r by lia.
  replace (n + k - 1) with (n - 1 + k) by lia. rewrite Z.pow_add_r by lia.
  destruct (Z.ltb_spec (m mod 2 ^ n) (2 ^ (n - 1))),
           (Z.ltb_spec (m mod 2 ^ n * 2 ^ k) (2 ^ (n - 1) * 2 ^ k)); try nia.
  destruct (Z.ltb_spec (2 ^ (n - 1)) (m mod 2 ^ n)),
           (Z.ltb_spec (2 ^ (n - 1) * 2 ^ k) (m mod 2 ^ n * 2 ^ k)); try nia;
    reflexivity.
Qed.

Section Scaled.
Variables prec emax S : Z.
Hypothesis Hprec : 0 < prec.

Local Abbreviation fexp := (SpecFloat.fexp prec emax).
Local Abbreviation emin := (SpecFloat.emin prec emax).

Lemma RN_grid X g :
  0 < X → 0 <= g → g = Z.max (Z.log2 X + 1 - prec) (emin + S) →
  RN prec emax S X = rne_shift X g * 2 ^ g ∨ (g = 0 ∧ RN prec emax S X = X).
Proof.
  intros HX Hg ->. unfold RN.
  destruct (Z.leb_spec X 0); [lia|]. cbn [orb].
  destruct (Z.leb_spec (Z.max (Z.log2 X + 1 - prec) (emin + S)) 0); [right|left]; lia.
Qed.

(** A multiple of its own grid step is left alone. *)
Lemma RN_exact a g :
  0 < a → 0 <= g → g = Z.max (Z.log2 (a * 2 ^ g) + 1 - prec) (emin + S) →
  RN prec emax S (a * 2 ^ g) = a * 2 ^ g.
Proof.
  intros Ha Hg Heq. unfold RN. rewrite <- Heq.
  destruct (Z.leb_spec (a * 2 ^ g) 0); [done|]. cbn [orb].
  destruct (Z.leb_spec g 0); [done|]. by rewrite rne_shift_exact.
Qed.

Lemma RN_nonneg X : 0 <= X → 0 <= RN prec emax S X.
Proof.
  intros HX. unfold RN. destruct (Z.leb_spec X 0); cbn [orb]; [lia|].
  case_match; [lia|].
  set (g := Z.max _ _) in *.
  assert (0 < g) by (destruct (Z.leb_spec g 0); [done|lia]).
  pose proof (rne_shift_bounds X g ltac:(lia) ltac:(lia)) as [Hlo _].
  pose proof (Z.div_pos X (2 ^ g) ltac:(lia) ltac:(apply Z.pow_pos_nonneg; lia)).
  pose proof (Z.pow_pos_nonneg 2 g ltac:(lia) ltac:(lia)). nia.
Qed.

Lemma RN_mono X1 X2 : X1 <= X2 → 0 <= X1 → RN prec emax S X1 <= RN prec emax S X2.
Proof.
  intros Hle H1.
  destruct (Z.eq_dec X1 0) as [->|Hnz].
  { etrans; [|apply RN_nonneg; lia]. by unfold RN. }
  assert (0 < X1) as HX1 by lia. assert (0 < X2) as HX2 by lia.
  unfold RN.
  destruct (Z.leb_spec X1 0); [lia|]. destruct (Z.leb_spec X2 0); [lia|]. cbn [orb].
  set (g1 := Z.max (Z.log2 X1 + 1 - prec) (emin + S)).
  set (g2 := Z.max (Z.log2 X2 + 1 - prec) (emin + S)).
  pose proof (Z.log2_le_mono X1 X2 Hle) as Hlog.
  pose proof (Z.log2_spec X1 HX1) as [Hlo1 Hhi1].
  pose proof (Z.log2_spec X2 HX2) as [Hlo2 Hhi2].
  pose proof (Z.log2_nonneg X1) as Hn1.
  assert (g1 <= g2) as Hg by lia.
  destruct (Z.eq_dec g1 g2) as [Heq|Hneq].
  { rewrite <- Heq. destruct (Z.leb_spec g1 0); [lia|].
    apply Z.mul_le_mono_nonneg_r; [apply Z.pow_nonneg; lia|].
    apply rne_shift_mono; lia. }
  (* different grids: a power of two separates the two results *)
  set (b := Z.max (Z.log2 X1 + 1) g1).
  assert (b <= Z.log2 X2) as Hb by lia.
  assert (2 ^ b <= X2) as HbX2.
  { etrans; [|exact Hlo2]. apply Z.pow_le_mono_r; lia. }
  assert (X1 <= 2 ^ b) as HX1b.
  { etrans; [apply Z.lt_le_incl, Hhi1|]. apply Z.pow_le_mono_r; lia. }
  transitivity (2 ^ b).
  - destruct (Z.leb_spec g1 0); [done|].
    replace (2 ^ b) with (2 ^ (b - g1) * 2 ^ g1)
      by (rewrite <- Z.pow_add_r by lia; f_equal; lia).
    apply Z.mul_le_mono_nonneg_r; [apply Z.pow_nonneg; lia|].
    rewrite <- (rne_shift_exact (2 ^ (b - g1)) g1) by lia.
    apply rne_shift_mono; [|lia].
    rewrite <- Z.pow_add_r by lia. replace (b - g1 + g1) with b by lia. lia.
  - destruct (Z.leb_spec g2 0); [done|].
    assert (g2 = Z.log2 X2 + 1 - prec) as Hg2 by lia.
    set (L := Z.log2 X2) in *.
    assert (2 ^ L = 2 ^ (L - g2) * 2 ^ g2) as HL
      by (rewrite <- Z.pow_add_r by lia; f_equal; lia).
    assert (2 ^ (L - g2) <= rne_shift X2 g2) as Hr.
    { rewrite <- (rne_shift_exact (2 ^ (L - g2)) g2) by lia.
      apply rne_shift_mono; [|lia]. rewrite <- HL.
      split; [apply Z.pow_nonneg; lia | exact Hlo2]. }
    etrans; [apply (Z.pow_le_mono_r 2 b L); lia|]. rewrite HL.
    apply Z.mul_le_mono_nonneg_r; [apply Z.pow_nonneg; lia | exact Hr].
Qed.

(** [round_mant] is [RN] on scaled values. *)
Lemma round_mant_RN N e :
  0 < N → 0 <= e + S →
  (round_mant prec emax N e).1 * 2 ^ ((round_mant prec emax N e).2 + S)
    = RN prec emax S (N * 2 ^ (e + S)) ∧
  e <= (round_mant prec emax N e).2 ∧ 0 <= (round_mant prec emax N e).1.
Proof.
  intros HN He. unfold round_mant, RN.
  assert (0 < 2 ^ (e + S)) as Hp by (apply Z.pow_pos_nonneg; lia).
  destruct (Z.leb_spec (N * 2 ^ (e + S)) 0) as [|_]; [nia|]. cbn [orb].
  rewrite Z.log2_mul_pow2 by lia.
  set (E := fexp (Z.log2 N + 1 + e)).
  replace (Z.max (e + S + Z.log2 N + 1 - prec) (emin + S)) with (E + S)
    by (unfold E, SpecFloat.fexp; lia).
  destruct (Z.leb_spec E e) as [Hle|Hgt]; cbn [fst snd].
  - split; [|lia]. destruct (Z.leb_spec (E + S) 0) as [|Hpos]; [done|].
    replace (N * 2 ^ (e + S)) with (N * 2 ^ (e - E) * 2 ^ (E + S)).
    2:{ rewrite <- Z.mul_assoc, <- Z.pow_add_r by lia. do 2 f_equal. lia. }
    by rewrite rne_shift_exact.
  - destruct (Z.leb_spec (E + S) 0) as [|_]; [lia|].
    replace (E + S) with (E - e + (e + S)) at 1 by lia.
    rewrite rne_shift_scale by lia.
    pose proof (rne_shift_bounds N (E - e) ltac:(lia) ltac:(lia)) as [Hlo _].
    pose proof (Z.div_pos N (2 ^ (E - e)) ltac:(lia) ltac:(apply Z.pow_pos_nonneg; lia)).
    destruct (Z.eqb_spec (rne_shift N (E - e)) (2 ^ prec)) as [Heq|Hne]; cbn [fst snd].
    + split; [|split; [lia | apply Z.pow_nonneg; lia]].
      rewrite Heq, <- !Z.pow_add_r by lia. f_equal. lia.
    + split; [reflexivity | lia].
Qed.

(** Canonical positive numbers compare as their values do. *)
Lemma SFcompare_canonical m1 e1 m2 e2 :
  canonical_at prec emax (Z.pos m1) e1 → canonical_at prec emax (Z.pos m2) e2 →
  0 <= e1 + S → 0 <= e2 + S →
  SFcompare (S754_finite false m1 e1) (S754_finite false m2 e2)
  = Some (Z.pos m1 * 2 ^ (e1 + S) ?= Z.pos m2 * 2 ^ (e2 + S)).
Proof.
  unfold canonical_at, SpecFloat.fexp. intros Hc1 Hc2 H1 H2. cbn [SFcompare].
  f_equal.
  pose proof (Z.log2_spec (Z.pos m1) ltac:(lia)) as [Hlo1 Hhi1].
  pose proof (Z.log2_spec (Z.pos m2) ltac:(lia)) as [Hlo2 Hhi2].
  pose proof (Z.log2_nonneg (Z.pos m1)). pose proof (Z.log2_nonneg (Z.pos m2)).
  assert (∀ m m' e e', Z.log2 m + 1 <= prec → Z.log2 m' + 1 = prec →
            0 < m → m < 2 ^ Z.succ (Z.log2 m) → 2 ^ Z.log2 m' <= m' →
            0 <= e + S → e < e' → m * 2 ^ (e + S) < m' * 2 ^ (e' + S)) as Hlt.
  { intros m m' e e' Hd Hd' Hm Hhi Hlo He Hee.
    assert (m < 2 ^ prec).
    { eapply Z.lt_le_trans; [exact Hhi|]. apply Z.pow_le_mono_r; lia. }
    replace (Z.log2 m') with (prec - 1) in Hlo by lia.
    assert (0 < 2 ^ (e + S)) by (apply Z.pow_pos_nonneg; lia).
    replace (e' + S) with (e' - e - 1 + 1 + (e + S)) by lia.
    rewrite (Z.pow_add_r 2 (e' - e - 1 + 1) (e + S)),
      (Z.pow_add_r 2 (e' - e - 1) 1), Z.pow_1_r by lia.
    assert (1 <= 2 ^ (e' - e - 1)) by (apply (Z.pow_le_mono_r 2 0); lia).
    assert (2 ^ prec = 2 ^ (prec - 1) * 2) as Hpp.
    { replace prec with (prec - 1 + 1) at 1 by lia.
      by rewrite Z.pow_add_r, Z.pow_1_r by lia. }
    rewrite Hpp in *.
    set (c := 2 ^ (e + S)) in *. set (k := 2 ^ (e' - e - 1)) in *.
    set (P := 2 ^ (prec - 1)) in *.
    assert (m * c < P * 2 * c) by (apply Z.mul_lt_mono_pos_r; lia).
    assert (P * 2 * c <= m' * 2 * c) by (apply Z.mul_le_mono_nonneg_r; lia).
    assert (0 <= m' * 2 * c) by lia.
    assert (m' * 2 * c * 1 <= m' * 2 * c * k) by (apply Z.mul_le_mono_nonneg_l; lia).
    lia. }
  destruct (Z.compare_spec e1 e2) as [Heq|Hlt12|Hgt12].
  - subst e2. change (Pos.compare_cont Eq m1 m2) with (m1 ?= m2)%positive.
    rewrite Pos2Z.inj_compare. apply Zmult_compare_compat_r.
    apply Z.lt_gt, Z.pow_pos_nonneg; lia.
  - symmetry. apply Z.compare_lt_iff.
    apply Hlt; try done; lia.
  - symmetry. apply Z.compare_gt_iff.
    apply Hlt; try done; lia.
Qed.
End Scaled.

(** ** The operations of [SpecFloat] return canonical floats *)

Section Nice.
Variables prec emax : Z.
Hypothesis Hprec : 0 < prec.

Local Abbreviation fexp := (SpecFloat.fexp prec emax).

Lemma pack_nice s me :
  (0 < me.1 → canonical_at prec emax me.1 me.2) → nice prec emax (pack prec emax s me).
Proof.
  unfold pack. destruct me as [[|p|p] e]; cbn [fst snd]; try done.
  intros H. destruct (e <=? emax - prec); [|done]. apply H. lia.
Qed.

Lemma binary_round_aux_nice s mx ex :
  0 < mx → ex <= fexp (Z.log2 mx + 1 + ex) →
  nice prec emax (binary_round_aux prec emax s mx ex loc_Exact).
Proof.
  intros Hmx Hex. rewrite binary_round_aux_spec by done.
  apply pack_nice. by apply round_mant_canonical.
Qed.

Lemma shl_align_spec mx ex ex' :
  shl_align mx ex ex' =
    if ex' <? ex then (Z.to_pos (Z.pos mx * 2 ^ (ex - ex')), ex') else (mx, ex).
Proof.
  unfold shl_align. destruct (Z.ltb_spec ex' ex) as [Hlt|Hge].
  - destruct (ex' - ex) as [|d|d] eqn:Hd; try lia.
    f_equal. replace (ex - ex') with (Z.pos d) by lia.
    apply Pos2Z.inj. rewrite Z2Pos.id.
    2:{ apply Z.mul_pos_pos; [lia | apply Z.pow_pos_nonneg; lia]. }
    change (Pos.iter xO mx d) with (shift_pos d mx).
    rewrite shift_pos_correct, Z.pow_pos_fold. ring.
  - destruct (ex' - ex) as [|d|d] eqn:Hd; try lia; reflexivity.
Qed.

Lemma binary_round_nice s m e : nice prec emax (binary_round prec emax s m e).
Proof.
  unfold binary_round. rewrite shl_align_spec, digits2_pos_size.
  assert (Z.pos (Pos.size m) = Z.log2 (Z.pos m) + 1) as ->
    by (destruct m; simpl; lia).
  set (E := fexp (Z.log2 (Z.pos m) + 1 + e)).
  destruct (Z.ltb_spec E e) as [Hlt|Hge].
  - assert (0 < Z.pos m * 2 ^ (e - E))
      by (apply Z.mul_pos_pos; [lia | apply Z.pow_pos_nonneg; lia]).
    rewrite Z2Pos.id by done.
    apply binary_round_aux_nice; [done|].
    rewrite Z.log2_mul_pow2 by lia.
    replace (e - E + Z.log2 (Z.pos m) + 1 + E) with (Z.log2 (Z.pos m) + 1 + e) by lia.
    fold E. lia.
  - apply binary_round_aux_nice; [lia|]. by fold E.
Qed.

Lemma binary_normalize_nice m e sz : nice prec emax (binary_normalize prec emax m e sz).
Proof. destruct m; [done | apply binary_round_nice..]. Qed.

Lemma SFadd_nice x y : nice prec emax x → nice prec emax y → nice prec emax (SFadd prec emax x y).
Proof.
  intros Hx Hy. destruct x as [sx|sx| |sx mx ex], y as [sy|sy| |sy my ey];
    cbn [SFadd]; try done; try (by destruct sx, sy).
  apply binary_normalize_nice.
Qed.

(** Multiplying by a normal number gives a canonical result. *)
Lemma SFmul_nice x sy my ey :
  prec <= Z.log2 (Z.pos my) + 1 →
  nice prec emax (SFmul prec emax x (S754_finite sy my ey)).
Proof.
  intros Hy. destruct x as [sx|sx| |sx mx ex]; cbn [SFmul]; try done.
  apply binary_round_aux_nice; [lia|].
  assert (Z.log2 (Z.pos my) <= Z.log2 (Z.pos (mx * my))).
  { apply Z.log2_le_mono. rewrite Pos2Z.inj_mul. nia. }
  unfold SpecFloat.fexp. lia.
Qed.
End Nice.

(** ** Single precision: the clipping of [blend] is saturation *)

Lemma of_Z_normal_all : forallb of_Z_normal (seqZ (-255) 511) = true.
Proof. vm_compute. reflexivity. Qed.

Lemma blend_temp_nice f d v :
  is_uint8 d → is_uint8 v → nice32 (blend_temp f d v).
Proof.
  unfold is_uint8. intros Hd Hv. unfold blend_temp, Float32.add, Float32.mul.
  apply SFadd_nice; [done | apply binary_normalize_nice; done |].
  pose proof of_Z_normal_all as Hall. rewrite forallb_forall in Hall.
  specialize (Hall (v - d)). unfold of_Z_normal in Hall.
  destruct (Float32.of_Z (v - d)) as [s|s| |s m e] eqn:Hk.
  - by destruct f as [?|?| |? ? ?].
  - discriminate Hall. apply list_elem_of_In, elem_of_seqZ. lia.
  - discriminate Hall. apply list_elem_of_In, elem_of_seqZ. lia.
  - apply SFmul_nice; [done|]. apply Z.leb_le, Hall.
    apply list_elem_of_In, elem_of_seqZ. lia.
Qed.

Lemma shiftl_pos_nonneg m e : 0 <= Z.shiftl (Z.pos m) e.
Proof. apply Z.shiftl_nonneg. lia. Qed.

(** The two comparisons of the extrapolation branch pick the clamp of the
    truncated value. *)
Lemma clip_is_clamp temp :
  nice32 temp →
  (if SFleb temp Float32.zero then 0
   else if SFleb (Float32.of_Z 255) temp then 255
   else to_uint8 (trunc temp))
  = clamp255 (trunc temp).
Proof.
  intros Hn. change (Float32.of_Z 255) with (S754_finite false 16711680 (-16)).
  unfold Float32.zero, clamp255, to_uint8.
  destruct temp as [s|[|]| |[|] m e]; try reflexivity.
  - (* negative *)
    cbn [SFleb SFcompare trunc cond_Zopp].
    pose proof (shiftl_pos_nonneg m e). lia.
  - (* positive, canonical *)
    unfold nice32, nice, canonical_at, fexp, emin in Hn.
    cbn [trunc cond_Zopp]. unfold SFleb. cbn [SFcompare].
    pose proof (Z.log2_spec (Z.pos m) ltac:(lia)) as [Hlo Hhi].
    pose proof (Z.log2_nonneg (Z.pos m)) as Hlog.
    destruct (Z.compare_spec (-16) e) as [He|He|He].
    + (* same exponent as 255.0 *)
      subst e. rewrite Z.shiftl_div_pow2 by lia. change (2 ^ (- -16)) with 65536.
      change (Pos.compare_cont Eq 16711680 m) with (16711680 ?= m)%positive.
      rewrite Pos2Z.inj_compare.
      pose proof (Z.div_mod (Z.pos m) 65536 ltac:(lia)).
      pose proof (Z.mod_pos_bound (Z.pos m) 65536 ltac:(lia)).
      assert (Z.log2 (Z.pos m) = 23) as Hl by lia. rewrite Hl in Hhi.
      change (2 ^ Z.succ 23) with 16777216 in Hhi.
      destruct (Z.compare_spec 16711680 (Z.pos m)); [| |rewrite Z.mod_small]; lia.
    + (* larger exponent *)
      assert (Z.log2 (Z.pos m) = 23) as Hl by lia. rewrite Hl in Hlo.
      change (2 ^ 23) with 8388608 in Hlo.
      assert (255 <= Z.shiftl (Z.pos m) e); [|lia].
      destruct (Z.le_gt_cases 0 e).
      * rewrite Z.shiftl_mul_pow2 by done.
        pose proof (Z.pow_pos_nonneg 2 e ltac:(lia) ltac:(lia)). nia.
      * rewrite Z.shiftl_div_pow2 by lia.
        apply Z.div_le_lower_bound; [apply Z.pow_pos_nonneg; lia|].
        assert (2 ^ (- e) <= 2 ^ 15) by (apply Z.pow_le_mono_r; lia).
        change (2 ^ 15) with 32768 in *. lia.
    + (* smaller exponent *)
      assert (Z.log2 (Z.pos m) <= 23) as Hl by lia.
      assert (Z.pos m < 2 ^ 24) as Hm.
      { eapply Z.lt_le_trans; [exact Hhi|]. apply Z.pow_le_mono_r; lia. }
      change (2 ^ 24) with 16777216 in Hm.
      rewrite Z.shiftl_div_pow2 by lia.
      assert (2 ^ 17 <= 2 ^ (- e)) by (apply Z.pow_le_mono_r; lia).
      change (2 ^ 17) with 131072 in *.
      assert (0 <= Z.pos m / 2 ^ (- e) < 128) as Hr.
      { split; [apply Z.div_pos; lia|]. apply Z.div_lt_upper_bound; lia. }
      rewrite Z.mod_small; lia.
Qed.

(** Outside the interval [0, 1] of factors, one channel of the blend loop is
    [scale_from]. *)
Lemma blend_chan_saturates f d v :
  SFleb Float32.zero f && SFleb f Float32.one = false →
  is_uint8 d → is_uint8 v →
  blend_chan f d v = scale_from f d v.
Proof.
  intros Hf Hd Hv. unfold blend_chan, scale_from. rewrite Hf. cbv zeta.
  apply clip_is_clamp. by apply blend_temp_nice.
Qed.

(** ** The brightness stage as a function of the factor *)

Lemma of_Z_exact_all : forallb of_Z_exact (seqZ 1 255) = true.
Proof. vm_compute. reflexivity. Qed.

Lemma of_Z_small v :
  1 <= v <= 255 →
  ∃ m e, Float32.of_Z v = S754_finite false m e ∧ -23 <= e <= 0 ∧
         Z.pos m = v * 2 ^ (- e).
Proof.
  intros Hv. pose proof of_Z_exact_all as Hall. rewrite forallb_forall in Hall.
  specialize (Hall v ltac:(apply list_elem_of_In, elem_of_seqZ; lia)).
  unfold of_Z_exact in Hall.
  destruct (Float32.of_Z v) as [|?| |[|] m e]; try done.
  apply andb_prop in Hall as [Hall H3]. apply andb_prop in Hall as [H1 H2].
  exists m, e. repeat split; lia.
Qed.

Lemma shiftl_scaled m e : 0 <= m → 0 <= e + S32 → 
  Z.shiftl m e = m * 2 ^ (e + S32) / 2 ^ S32.
Proof.
  intros Hm He. unfold S32 in *. destruct (Z.le_gt_cases 0 e).
  - rewrite Z.shiftl_mul_pow2, Z.pow_add_r, Z.mul_assoc, Z.div_mul by lia.
    reflexivity.
  - rewrite Z.shiftl_div_pow2 by lia.
    replace (2 ^ 1100) with (2 ^ (- e) * 2 ^ (e + 1100))
      by (rewrite <- Z.pow_add_r by lia; f_equal; lia).
    rewrite Z.div_mul_cancel_r; [done | lia | ].
    apply Z.pow_nonzero; lia.
Qed.

Lemma clamp255_mono x y : x <= y → clamp255 x <= clamp255 y.
Proof. unfold clamp255. lia. Qed.

Lemma clamp255_range x : 0 <= clamp255 x <= 255.
Proof. unfold clamp255. lia. Qed.

Lemma RN32_mono X1 X2 : X1 <= X2 → 0 <= X1 → RN32 X1 <= RN32 X2.
Proof. apply RN_mono. lia. Qed.

Lemma bright_of_mono A1 A2 v :
  0 <= A1 <= A2 → 0 <= v → bright_of A1 v <= bright_of A2 v.
Proof.
  intros HA Hv. unfold bright_of. apply clamp255_mono.
  apply Z.div_le_mono; [apply Z.pow_pos_nonneg; unfold S32; lia|].
  apply RN32_mono; nia.
Qed.

(** An integer below 256 is a single precision number. *)
Lemma RN32_int v : 0 <= v <= 255 → RN32 (v * 2 ^ S32) = v * 2 ^ S32.
Proof.
  intros Hv. destruct (Z.eq_dec v 0) as [->|Hnz]; [done|].
  pose proof (Z.log2_spec v ltac:(lia)) as [Hlo Hhi].
  pose proof (Z.log2_nonneg v).
  assert (Z.log2 v < 8) by (apply Z.log2_lt_pow2; lia).
  set (g := S32 + Z.log2 v - 23).
  assert (0 <= g) by (unfold g, S32; lia).
  assert (v * 2 ^ S32 = v * 2 ^ (23 - Z.log2 v) * 2 ^ g) as Heq.
  { rewrite <- Z.mul_assoc, <- Z.pow_add_r by lia. do 2 f_equal. unfold g. lia. }
  rewrite Heq. apply RN_exact.
  - apply Z.mul_pos_pos; [lia | apply Z.pow_pos_nonneg; lia].
  - lia.
  - rewrite <- Heq, Z.log2_mul_pow2 by (unfold S32; lia).
    unfold emin, g, S32. lia.
Qed.

(** A power of two beyond the single precision range. *)
Lemma RN32_huge : RN32 (2 ^ (105 + S32)) = 2 ^ (105 + S32).
Proof.
  replace (2 ^ (105 + S32)) with (2 ^ 23 * 2 ^ (82 + S32))
    by (rewrite <- Z.pow_add_r by (unfold S32; lia); f_equal; lia).
  apply RN_exact; [lia | unfold S32; lia |].
  rewrite <- Z.pow_add_r by (unfold S32; lia).
  rewrite Z.log2_pow2 by (unfold S32; lia). unfold emin, S32. lia.
Qed.

Lemma trunc_pack m e :
  0 <= m → 0 <= e + S32 →
  trunc (pack 24 128 false (m, e)) = m * 2 ^ (e + S32) / 2 ^ S32 ∨
  (0 < m ∧ 104 < e ∧ trunc (pack 24 128 false (m, e)) = 2 ^ 128).
Proof.
  intros Hm He. unfold pack. cbn [fst snd]. destruct m as [|p|p]; [left|..|lia].
  - reflexivity.
  - destruct (Z.leb_spec e (128 - 24)); [left|right].
    + cbn [trunc cond_Zopp]. by apply shiftl_scaled.
    + cbn [trunc cond_Zopp]. lia.
Qed.

Lemma SFadd_zero_pack m e :
  0 <= m →
  SFadd 24 128 (S754_zero false) (pack 24 128 false (m, e)) = pack 24 128 false (m, e).
Proof.
  intros Hm. unfold pack. cbn [fst snd]. destruct m as [|p|p]; [done| |lia].
  by destruct (e <=? 128 - 24).
Qed.

(** The value the pixel loop truncates, for a positive finite factor and a
    non-zero channel. *)
Lemma blend_temp_pos p ea v :
  1 <= v <= 255 → 0 <= ea + S32 - 23 →
  ∃ m e, blend_temp (S754_finite false p ea) 0 v = pack 24 128 false (m, e) ∧
         0 <= m ∧ 0 <= e + S32 ∧
         m * 2 ^ (e + S32) = RN32 (Z.pos p * 2 ^ (ea + S32) * v).
Proof.
  intros Hv Hea. destruct (of_Z_small v Hv) as (mv & ev & Hof & Hev & Hmv).
  unfold blend_temp. rewrite Z.sub_0_r, Hof.
  change (Float32.of_Z 0) with (S754_zero false).
  unfold Float32.add, Float32.mul, Float32.prec, Float32.emax. cbn [SFmul xorb].
  rewrite binary_round_aux_spec by lia.
  destruct (round_mant_RN 24 128 S32 ltac:(lia) (Z.pos (p * mv)) (ea + ev)
              ltac:(lia) ltac:(lia))
    as (Hval & Hexp & Hnn).
  set (rm := round_mant 24 128 (Z.pos (p * mv)) (ea + ev)) in *.
  exists rm.1, rm.2. rewrite <- surjective_pairing.
  split; [by apply SFadd_zero_pack|]. split; [done|]. split; [lia|].
  rewrite Hval. f_equal. rewrite Pos2Z.inj_mul, Hmv.
  replace (ea + S32) with (- ev + (ea + ev + S32)) by lia.
  rewrite (Z.pow_add_r 2 (- ev) (ea + ev + S32)) by lia. ring.
Qed.

Lemma one_canonical : canonical_at 24 128 (Z.pos 8388608) (-23).
Proof. reflexivity. Qed.

(** For a positive finite factor the brightness channel is the rounded
    product, truncated and clamped. *)
Lemma bright_chan_finite p ea v :
  canonical_at 24 128 (Z.pos p) ea → 1 <= v <= 255 →
  bright_chan (S754_finite false p ea) v = bright_of (Z.pos p * 2 ^ (ea + S32)) v.
Proof.
  intros Hcan Hv.
  assert (-149 <= ea) as Hea by (unfold canonical_at, fexp, emin in Hcan; lia).
  assert (0 <= ea + S32 - 23) as Hea' by (unfold S32; lia).
  set (A := Z.pos p * 2 ^ (ea + S32)).
  assert (0 < 2 ^ S32) as HS by (apply Z.pow_pos_nonneg; unfold S32; lia).
  assert (0 < A) as HA.
  { apply Z.mul_pos_pos; [lia | apply Z.pow_pos_nonneg; lia]. }
  pose proof (SFcompare_canonical 24 128 S32 ltac:(lia) p ea 8388608 (-23)
                Hcan one_canonical ltac:(lia) ltac:(unfold S32; lia)) as Hcmp.
  fold A in Hcmp.
  replace (Z.pos 8388608 * 2 ^ (-23 + S32)) with (2 ^ S32) in Hcmp
    by (change (Z.pos 8388608) with (2 ^ 23);
        rewrite <- Z.pow_add_r by (unfold S32; lia); f_equal; lia).
  change (S754_finite false 8388608 (-23)) with Float32.one in Hcmp.
  destruct (blend_temp_pos p ea v Hv Hea') as (m & e & Htemp & Hm & He & Hval).
  fold A in Hval.
  unfold bright_chan, bright_of.
  change (SFeqb (S754_finite false p ea) Float32.zero) with false. cbv iota.
  unfold SFeqb at 1. rewrite Hcmp.
  destruct (Z.compare_spec A (2 ^ S32)) as [Heq|Hlt|Hgt].
  - (* the factor is 1.0 *)
    rewrite Heq, Z.mul_comm, RN32_int, Z.div_mul by lia.
    unfold clamp255. lia.
  - (* below 1.0: interpolation *)
    unfold blend_chan, SFleb at 2. rewrite Hcmp.
    destruct (Z.compare_spec A (2 ^ S32)) as [|_|]; try lia.
    change (SFleb Float32.zero (S754_finite false p ea)) with true. cbn [andb].
    rewrite Htemp.
    assert (RN32 (A * v) <= v * 2 ^ S32) as Hup.
    { rewrite <- (RN32_int v) by lia. apply RN32_mono; nia. }
    assert (0 <= RN32 (A * v)) as Hlo by (apply RN_nonneg; nia).
    assert (0 <= RN32 (A * v) / 2 ^ S32 <= v) as Hr.
    { split; [by apply Z.div_pos|]. apply Z.div_le_upper_bound; lia. }
    destruct (trunc_pack m e Hm He) as [Ht|(Hm' & He' & _)].
    + rewrite Ht, Hval. unfold to_uint8, clamp255. rewrite Z.mod_small; lia.
    + exfalso. rewrite <- Hval in Hup.
      assert (2 ^ (105 + S32) <= 2 ^ (e + S32)) by (apply Z.pow_le_mono_r; lia).
      assert (2 ^ (105 + S32) = 2 ^ 105 * 2 ^ S32) as Hp
        by (apply Z.pow_add_r; unfold S32; lia).
      assert (v < 2 ^ 105) by (change (2 ^ 105) with 40564819207303340847894502572032; lia).
      nia.
  - (* above 1.0: extrapolation, clipped *)
    unfold blend_chan, SFleb at 2. rewrite Hcmp.
    destruct (Z.compare_spec A (2 ^ S32)) as [| |_]; try lia.
    rewrite andb_false_r. cbv zeta.
    rewrite (clip_is_clamp (blend_temp (S754_finite false p ea) 0 v))
      by (apply blend_temp_nice; unfold is_uint8; lia).
    rewrite Htemp.
    destruct (trunc_pack m e Hm He) as [Ht|(Hm' & He' & Ht)]; rewrite Ht.
    + by rewrite Hval.
    + rewrite <- Hval.
      assert (2 ^ (105 + S32) <= 2 ^ (e + S32)) by (apply Z.pow_le_mono_r; lia).
      assert (2 ^ (105 + S32) = 2 ^ 105 * 2 ^ S32) as Hp
        by (apply Z.pow_add_r; unfold S32; lia).
      assert (2 ^ 105 <= m * 2 ^ (e + S32) / 2 ^ S32).
      { apply Z.div_le_lower_bound; [done|]. nia. }
      unfold clamp255.
      change (2 ^ 105) with 40564819207303340847894502572032 in *.
      change (2 ^ 128) with 340282366920938463463374607431768211456. lia.
Qed.

Lemma bright_of_zero_l v : bright_of 0 v = 0.
Proof. reflexivity. Qed.

(** Beyond the single precision range the channel is saturated. *)
Lemma bright_of_huge A v :
  2 ^ (105 + S32) <= A → 1 <= v → bright_of A v = 255.
Proof.
  intros HA Hv. unfold bright_of.
  assert (0 < 2 ^ S32) as HS by (apply Z.pow_pos_nonneg; unfold S32; lia).
  assert (0 < 2 ^ (105 + S32)) as HP by (apply Z.pow_pos_nonneg; unfold S32; lia).
  assert (2 ^ (105 + S32) <= RN32 (A * v)) as Hr.
  { rewrite <- RN32_huge. apply RN32_mono; [nia | lia]. }
  assert (2 ^ (105 + S32) = 2 ^ 105 * 2 ^ S32) as Hp
    by (apply Z.pow_add_r; unfold S32; lia).
  assert (2 ^ 105 <= RN32 (A * v) / 2 ^ S32)
    by (apply Z.div_le_lower_bound; [done|lia]).
  unfold clamp255. change (2 ^ 105) with 40564819207303340847894502572032 in *. lia.
Qed.

Lemma bright_chan_pack ma ea v :
  0 <= ma → (0 < ma → canonical_at 24 128 ma ea) → 1 <= v <= 255 →
  bright_chan (pack 24 128 false (ma, ea)) v = bright_of (ma * 2 ^ (ea + S32)) v.
Proof.
  intros Hma Hcan Hv. unfold pack. cbn [fst snd].
  destruct ma as [|p|p]; [reflexivity| |lia].
  specialize (Hcan ltac:(lia)).
  destruct (Z.leb_spec ea (128 - 24)) as [Hle|Hgt].
  - by apply bright_chan_finite.
  - rewrite bright_of_huge; [|..|lia].
    + destruct (of_Z_small v Hv) as (mv & ev & Hof & _).
      unfold bright_chan, blend_chan, blend_temp. rewrite Z.sub_0_r, Hof.
      reflexivity.
    + assert (2 ^ (105 + S32) <= 2 ^ (ea + S32)) by (apply Z.pow_le_mono_r; lia).
      assert (0 < 2 ^ (105 + S32)) by (apply Z.pow_pos_nonneg; unfold S32; lia).
      nia.
Qed.

(** Narrowing a positive double. *)
Lemma of_double_pos m e :
  0 <= e + S32 →
  ∃ ma ea, Float32.of_double (S754_finite false m e) = pack 24 128 false (ma, ea) ∧
           0 <= ma ∧ (0 < ma → canonical_at 24 128 ma ea) ∧
           ma * 2 ^ (ea + S32) = RN32 (Z.pos m * 2 ^ (e + S32)).
Proof.
  intros He. unfold Float32.of_double, Float32.prec, Float32.emax, binary_round.
  rewrite shl_align_spec, digits2_pos_size.
  assert (Z.pos (Pos.size m) = Z.log2 (Z.pos m) + 1) as ->
    by (destruct m; simpl; lia).
  set (E := fexp 24 128 (Z.log2 (Z.pos m) + 1 + e)).
  assert (-149 <= E) as HE by (unfold E, fexp, emin; lia).
  assert (∀ mz ez, 0 < mz → 0 <= ez + S32 →
            ez <= fexp 24 128 (Z.log2 mz + 1 + ez) →
            mz * 2 ^ (ez + S32) = Z.pos m * 2 ^ (e + S32) →
            ∃ ma ea,
              binary_round_aux 24 128 false mz ez loc_Exact
                = pack 24 128 false (ma, ea) ∧
              0 <= ma ∧ (0 < ma → canonical_at 24 128 ma ea) ∧
              ma * 2 ^ (ea + S32) = RN32 (Z.pos m * 2 ^ (e + S32))) as Hgen.
  { intros mz ez Hmz Hez Hfe Hval.
    rewrite binary_round_aux_spec by lia.
    destruct (round_mant_RN 24 128 S32 ltac:(lia) mz ez Hmz Hez) as (Hv & _ & Hnn).
    pose proof (round_mant_canonical 24 128 ltac:(lia) mz ez Hmz Hfe) as Hc.
    exists (round_mant 24 128 mz ez).1, (round_mant 24 128 mz ez).2.
    rewrite <- surjective_pairing. repeat split; try done.
    by rewrite Hv, Hval. }
  destruct (Z.ltb_spec E e) as [Hlt|Hge].
  - assert (0 < Z.pos m * 2 ^ (e - E))
      by (apply Z.mul_pos_pos; [lia | apply Z.pow_pos_nonneg; lia]).
    rewrite Z2Pos.id by done. apply Hgen; [done | unfold S32; lia | |].
    + rewrite Z.log2_mul_pow2 by lia.
      replace (e - E + Z.log2 (Z.pos m) + 1 + E) with (Z.log2 (Z.pos m) + 1 + e) by lia.
      fold E. lia.
    + rewrite <- Z.mul_assoc, <- Z.pow_add_r by (unfold S32; lia).
      do 2 f_equal. lia.
  - apply Hgen; [lia | done | by fold E | done].
Qed.

Lemma bright_chan_of_double_pos m e v :
  0 <= e + S32 → 1 <= v <= 255 →
  bright_chan (Float32.of_double (S754_finite false m e)) v
  = bright_of (RN32 (Z.pos m * 2 ^ (e + S32))) v.
Proof.
  intros He Hv. destruct (of_double_pos m e He) as (ma & ea & -> & Hma & Hcan & <-).
  by apply bright_chan_pack.
Qed.

Lemma of_double_nonpositive f : nonpositive f → nonpositive (Float32.of_double f).
Proof.
  destruct f as [s|[|]| |[|] m e]; try done. intros _.
  unfold Float32.of_double, Float32.prec, Float32.emax, binary_round.
  destruct (shl_align m e _) as [mz ez].
  rewrite binary_round_aux_spec by lia. unfold pack.
  pose proof (round_mant_RN 24 128 (- ez) ltac:(lia) (Z.pos mz) ez
                ltac:(lia) ltac:(lia)) as (_ & _ & Hnn).
  destruct (round_mant 24 128 (Z.pos mz) ez).1; [done | | lia].
  by destruct (_ <=? _).
Qed.

Lemma bright_chan_zero a : bright_chan a 0 = 0.
Proof.
  unfold bright_chan, blend_chan, blend_temp. rewrite Z.sub_0_r.
  change (Float32.of_Z 0) with (S754_zero false).
  destruct (SFeqb a Float32.zero); [done|]. destruct (SFeqb a Float32.one); [done|].
  generalize (SFleb Float32.zero a && SFleb a Float32.one). intros c.
  destruct a as [[|]|[|]| |[|] m e], c; reflexivity.
Qed.

Lemma bright_chan_nonpositive a v :
  nonpositive a → 1 <= v <= 255 → bright_chan a v = 0.
Proof.
  intros Ha Hv. destruct (of_Z_small v Hv) as (mv & ev & Hof & _).
  unfold bright_chan, blend_chan, blend_temp. rewrite Z.sub_0_r, Hof.
  change (Float32.of_Z 0) with (S754_zero false).
  destruct a as [s|[|]| |[|] m e]; try done.
  (* a negative finite factor: the product is not positive *)
  change (SFeqb (S754_finite true m e) Float32.zero) with false.
  change (SFeqb (S754_finite true m e) Float32.one) with false.
  change (SFleb Float32.zero (S754_finite true m e)) with false.
  cbn [andb]. cbv iota zeta.
  unfold Float32.add, Float32.mul, Float32.prec, Float32.emax. cbn [SFmul xorb].
  rewrite binary_round_aux_spec by lia. unfold pack.
  pose proof (round_mant_RN 24 128 (- (e + ev)) ltac:(lia) (Z.pos (m * mv)) (e + ev)
                ltac:(lia) ltac:(lia)) as (_ & _ & Hnn).
  destruct (round_mant 24 128 (Z.pos (m * mv)) (e + ev)).1; [done | | lia].
  by destruct (_ <=? _).
Qed.

Lemma bright_chan_inf v : 1 <= v <= 255 → bright_chan (S754_infinity false) v = 255.
Proof.
  intros Hv. destruct (of_Z_small v Hv) as (mv & ev & Hof & _).
  unfold bright_chan, blend_chan, blend_temp. rewrite Z.sub_0_r, Hof.
  reflexivity.
Qed.

Lemma bright_chan_range a v : is_uint8 v → is_uint8 (bright_chan a v).
Proof.
  intros Hv. unfold bright_chan.
  destruct (SFeqb a Float32.zero); [by unfold is_uint8|].
  destruct (SFeqb a Float32.one); [done|]. apply blend_chan_range.
Qed.

(** Valid doubles compare as their values do. *)
Lemma double_le m1 e1 m2 e2 :
  valid_binary 53 1024 (S754_finite false m1 e1) = true →
  valid_binary 53 1024 (S754_finite false m2 e2) = true →
  SFleb (S754_finite false m1 e1) (S754_finite false m2 e2) = true →
  0 <= e1 + S32 ∧ 0 <= e2 + S32 ∧
  Z.pos m1 * 2 ^ (e1 + S32) <= Z.pos m2 * 2 ^ (e2 + S32).
Proof.
  unfold valid_binary, bounded, canonical_mantissa. intros H1 H2 Hle.
  apply andb_prop in H1 as [H1 _]. apply andb_prop in H2 as [H2 _].
  apply Z.eqb_eq in H1, H2. rewrite digits2_pos_size in H1, H2.
  assert (∀ m, Z.pos (Pos.size m) = Z.log2 (Z.pos m) + 1) as Hsz
    by (intros m; destruct m; simpl; lia).
  rewrite Hsz in H1, H2.
  assert (-1074 <= e1 ∧ -1074 <= e2) as [He1 He2]
    by (unfold fexp, emin in H1, H2; lia).
  split; [unfold S32; lia|]. split; [unfold S32; lia|].
  unfold SFleb in Hle.
  rewrite (SFcompare_canonical 53 1024 S32 ltac:(lia) m1 e1 m2 e2 H1 H2)
    in Hle by (unfold S32; lia).
  destruct (Z.compare_spec (Z.pos m1 * 2 ^ (e1 + S32)) (Z.pos m2 * 2 ^ (e2 + S32)));
    [lia | lia | done].
Qed.

(** The brightness channel never decreases when the factor grows. *)
Lemma bright_chan_monotone f1 f2 v :
  valid_binary 53 1024 f1 = true → valid_binary 53 1024 f2 = true →
  SFleb f1 f2 = true → is_uint8 v →
  bright_chan (Float32.of_double f1) v <= bright_chan (Float32.of_double f2) v.
Proof.
  intros Hv1 Hv2 Hle Hv.
  destruct (Z.eq_dec v 0) as [->|Hnz]; [by rewrite !bright_chan_zero|].
  assert (1 <= v <= 255) as Hv' by (unfold is_uint8 in Hv; lia).
  pose proof (bright_chan_range (Float32.of_double f1) v Hv) as [Hlo1 Hhi1].
  pose proof (bright_chan_range (Float32.of_double f2) v Hv) as [Hlo2 Hhi2].
  assert (nonpositive f1 → bright_chan (Float32.of_double f1) v
                            <= bright_chan (Float32.of_double f2) v) as Hnp.
  { intros Hn. rewrite (bright_chan_nonpositive (Float32.of_double f1) v); [done| |done].
    by apply of_double_nonpositive. }
  destruct f2 as [s2|[|]| |[|] m2 e2].
  - destruct f1 as [s1|[|]| |[|] m1 e1]; try done; by apply Hnp.
  - destruct f1 as [s1|[|]| |[|] m1 e1]; try done; by apply Hnp.
  - cbn [Float32.of_double]. rewrite (bright_chan_inf v Hv'). lia.
  - by destruct f1 as [s1|[|]| |[|] m1 e1].
  - destruct f1 as [s1|[|]| |[|] m1 e1]; try done; by apply Hnp.
  - destruct f1 as [s1|[|]| |[|] m1 e1]; try done; try (by apply Hnp).
    destruct (double_le m1 e1 m2 e2 Hv1 Hv2 Hle) as (He1 & He2 & Hord).
    rewrite !bright_chan_of_double_pos by done.
    assert (0 < 2 ^ (e1 + S32)) by (apply Z.pow_pos_nonneg; lia).
    apply bright_of_mono; [|lia]. split.
    + apply RN_nonneg. lia.
    + apply RN32_mono; lia.
Qed.

(** The brightness stage at any factor, pixel by pixel. *)
Lemma brightness_stage im f :
  length (im_data im) = npixels (im_size im) →
  (Brightness im ≫= λ e, enhance e f)
  = Ok (mkImage (im_size im) (bright_rgb (Float32.of_double f) <$> im_data im)).
Proof.
  intros Hlen. unfold Brightness, enhance.
  cbn [mbind result_bind enh_image enh_degenerate]. unfold blend.
  unfold new_RGB_black. cbn [im_size im_data]. rewrite size_eqb_refl.
  cbn [negb]. cbv zeta.
  set (a := Float32.of_double f). unfold bright_rgb, bright_chan.
  destruct (SFeqb a Float32.zero) eqn:H0; [|destruct (SFeqb a Float32.one) eqn:H1].
  - do 2 f_equal. rewrite <- Hlen. clear Hlen.
    induction (im_data im) as [|p l IH]; [done|]. simpl. by f_equal.
  - clear Hlen. destruct im as [sz data]. cbn [im_size im_data]. do 2 f_equal.
    induction data as [|[r g b] l IH]; [done|]. csimpl. by f_equal.
  - do 2 f_equal. by apply zip_with_replicate_const.
Qed.

Lemma sumZ_fmap_le {A} (f g : A → Z) (l : list A) :
  Forall (λ x, f x <= g x) l → sumZ (f <$> l) <= sumZ (g <$> l).
Proof.
  unfold sumZ. induction 1 as [|x l Hx _ IH]; csimpl; lia.
Qed.

Lemma L24_mono p q :
  rgb_r p <= rgb_r q → rgb_g p <= rgb_g q → rgb_b p <= rgb_b q → L24 p <= L24 q.
Proof.
  intros. unfold L24. rewrite !Z.shiftr_div_pow2 by lia.
  apply Z.div_le_mono; lia.
Qed.

(** ** The claims about the image pipeline *)

Lemma blend_rgb_saturates f d p :
  SFleb Float32.zero f && SFleb f Float32.one = false →
  rgb_ok d → rgb_ok p → blend_rgb f d p = scale_rgb f d p.
Proof.
  unfold rgb_ok. intros Hf (Hd1 & Hd2 & Hd3) (Hp1 & Hp2 & Hp3).
  unfold blend_rgb, scale_rgb.
  f_equal; by apply blend_chan_saturates.
Qed.

Lemma grey_ok v : is_uint8 v → rgb_ok (grey v).
Proof. intros ?. unfold rgb_ok, grey. cbn [rgb_r rgb_g rgb_b]. tauto. Qed.

Lemma mean_level_range im : is_uint8 (mean_level im).
Proof. apply CLIP8_range. Qed.

Section Pipeline.
Variable GaussianBlur : Z → Image rgba8 → Image rgba8.
Hypothesis blur_ok : blur_contract GaussianBlur.

Local Abbreviation frame := (frame_of GaussianBlur).

Lemma frame_sizes img :
  well_formed rgba_ok img →
  let fr := frame img in
  im_size (v_rgb_img fr) = im_size img ∧ im_size (v_bright fr) = im_size img ∧
  im_size (v_contrast fr) = im_size img ∧ im_size (v_color fr) = im_size img ∧
  im_size (v_brightened fr) = im_size img ∧ im_size (v_glow fr) = im_size img ∧
  im_size (v_final fr) = im_size img.
Proof.
  intros Hwf fr. repeat split; try reflexivity.
  apply (blur_ok GLOW_RADIUS _ (brightened_wf GaussianBlur img Hwf)).
Qed.

Lemma glow_wf img :
  well_formed rgba_ok img → well_formed rgba_ok (v_glow (frame img)).
Proof.
  intros Hwf.
  apply (blur_ok GLOW_RADIUS _ (brightened_wf GaussianBlur img Hwf)).
Qed.

(** Pixel [i] of the result is pixel [i] of the sharp image composited over
    pixel [i] of the glow. *)
Lemma final_lookup img i e :
  well_formed rgba_ok img →
  im_data (v_brightened (frame img)) !! i = Some e →
  ∃ g, im_data (v_glow (frame img)) !! i = Some g ∧ rgba_ok g ∧ rgba_ok e ∧
       im_data (v_final (frame img)) !! i = Some (composite_px g e).
Proof.
  intros Hwf He.
  pose proof (brightened_wf GaussianBlur img Hwf) as [Hbl Hbok].
  pose proof (glow_wf img Hwf) as [Hgl Hgok].
  destruct (frame_sizes img Hwf) as (_ & _ & _ & _ & Hbs & Hgs & _).
  assert (is_Some (im_data (v_glow (frame img)) !! i)) as [g Hg].
  { apply lookup_lt_is_Some. rewrite Hgl, Hgs, <- Hbs, <- Hbl.
    by apply lookup_lt_is_Some. }
  exists g. split; [done|].
  split; [exact (Forall_lookup_1 _ _ _ _ Hgok Hg)|].
  split; [exact (Forall_lookup_1 _ _ _ _ Hbok He)|].
  change (im_data (v_final (frame img)))
    with (zip_with composite_px (im_data (v_glow (frame img)))
                                (im_data (v_brightened (frame img)))).
  rewrite lookup_zip_with, Hg, He. reflexivity.
Qed.

(** C1.  The alpha band taken by [img.split()] is the alpha band of the
    image, no enhancer touches it (they run on the three-band RGB image),
    and it is the alpha band of the enhanced RGBA image [brightened]; hence
    a pixel that is fully transparent in the input is fully transparent in
    the enhanced layer. *)
Theorem alpha_plane_preserved img :
  well_formed rgba_ok img → nonempty img →
  ∃ fr, process GaussianBlur img = Ok fr ∧
    v_a fr = getband rgba_a img ∧
    getband rgba_a (v_brightened fr) = v_a fr ∧
    (∀ i p, im_data img !! i = Some p → rgba_a p = 0 →
       ∃ q, im_data (v_brightened fr) !! i = Some q ∧ rgba_a q = 0).
Proof.
  intros Hwf Hne. exists (frame img).
  split; [by apply process_frame|]. split; [reflexivity|].
  assert (rgba_a <$> im_data (v_brightened (frame img)) = rgba_a <$> im_data img)
    as Halpha.
  { rewrite brightened_data, <- list_fmap_compose. by apply list_fmap_ext. }
  split.
  - unfold getband. rewrite Halpha.
    by destruct (frame_sizes img Hwf) as (_ & _ & _ & _ & -> & _).
  - intros i p Hp Hz.
    apply (f_equal (λ l, l !! i)) in Halpha.
    rewrite !list_lookup_fmap, Hp in Halpha.
    destruct (im_data (v_brightened (frame img)) !! i) as [q|]; [|done].
    exists q. split; [done|]. cbn in Halpha. congruence.
Qed.

(** C2, as amended.  The sharp image is composited over the glow, pixel by
    pixel; the stored alpha is the "over" alpha rounded to nearest, and the
    stored colour is the straight (un-premultiplied) colour: the
    premultiplied sum divided by the result alpha, within one 8-bit step.
    Where the sharp pixel is fully transparent the glow pixel is copied. *)
Theorem composite_straight_over img :
  well_formed rgba_ok img → nonempty img →
  ∃ fr, process GaussianBlur img = Ok fr ∧
    alpha_composite (v_glow fr) (v_brightened fr) = Ok (v_final fr) ∧
    (∀ i e, im_data (v_brightened fr) !! i = Some e →
       ∃ g o, im_data (v_glow fr) !! i = Some g ∧
              im_data (v_final fr) !! i = Some o ∧
              o = composite_px g e ∧ straight_over g e o).
Proof.
  intros Hwf Hne. exists (frame img).
  split; [by apply process_frame|]. split.
  - unfold alpha_composite.
    destruct (frame_sizes img Hwf) as (_ & _ & _ & _ & Hbs & Hgs & _).
    rewrite Hgs, Hbs, size_eqb_refl. reflexivity.
  - intros i e He.
    destruct (final_lookup img i e Hwf He) as (g & Hg & Hgok & Heok & Hf).
    exists g, (composite_px g e). repeat split; try done.
    by apply composite_px_straight_over.
Qed.

(** C3.  The enhancement stage is Brightness at 1.4, then Contrast at 1.3 on
    its output, then Color (saturation) at 1.5 on that output, and the
    result is what the enhanced image carries.  Each stage scales the
    distance of every channel from its degenerate level (black, the mean
    grey, the pixel's own grey) and saturates at 0 and 255; for the
    brightness stage this is [min 255 (floor (1.4 * v))]. *)
Theorem enhancement_order img :
  well_formed rgba_ok img → nonempty img →
  ∃ fr, process GaussianBlur img = Ok fr ∧
    v_rgb_img fr = rgb_part img ∧
    (Brightness (v_rgb_img fr) ≫= λ e, enhance e BRIGHTNESS) = Ok (v_bright fr) ∧
    (Contrast (v_bright fr) ≫= λ e, enhance e CONTRAST) = Ok (v_contrast fr) ∧
    (Color (v_contrast fr) ≫= λ e, enhance e SATURATION) = Ok (v_color fr) ∧
    rgb_of <$> im_data (v_brightened fr) = im_data (v_color fr) ∧
    im_data (v_bright fr)
      = scale_rgb f32_brightness (grey 0) <$> im_data (v_rgb_img fr) ∧
    im_data (v_contrast fr)
      = scale_rgb f32_contrast (grey (mean_level (v_bright fr)))
          <$> im_data (v_bright fr) ∧
    im_data (v_color fr)
      = (λ p, scale_rgb f32_saturation (grey (L24 p)) p)
          <$> im_data (v_contrast fr) ∧
    (∀ v, is_uint8 v → scale_from f32_brightness 0 v = Z.min 255 (14 * v / 10)) ∧
    Forall rgb_ok (im_data (v_bright fr)) ∧
    Forall rgb_ok (im_data (v_contrast fr)) ∧
    Forall rgb_ok (im_data (v_color fr)).
Proof.
  intros Hwf Hne. pose proof Hwf as [Hlen Hok]. exists (frame img).
  split; [by apply process_frame|]. split; [reflexivity|].
  assert (Forall rgb_ok (im_data (rgb_part img))) as Hrgb.
  { unfold rgb_part. cbn [im_data]. apply Forall_fmap.
    eapply Forall_impl; [exact Hok|]. by intros p (? & ? & ? & _). }
  assert (well_formed rgb_ok (v_bright (frame img))) as Hb.
  { split; cbn [frame_of v_bright im_data im_size rgb_part].
    - by rewrite !length_fmap.
    - apply Forall_fmap, Forall_true. intros p. apply bright_px_ok. }
  assert (Forall rgb_ok (im_data (v_contrast (frame img)))) as Hc.
  { cbn [frame_of v_contrast im_data].
    apply Forall_fmap, Forall_true. intros p. apply contrast_px_ok. }
  assert (Forall rgb_ok (im_data (v_color (frame img)))) as Hcol.
  { cbn [frame_of v_color im_data].
    apply Forall_fmap, Forall_true. intros p. apply color_px_ok. }
  split; [|split; [|split]].
  - apply (enhance_Brightness (rgb_part img)).
    unfold rgb_part. cbn [im_data im_size]. by rewrite length_fmap.
  - apply (enhance_Contrast (v_bright (frame img)) Hb). exact Hne.
  - apply (enhance_Color (v_contrast (frame img))).
  - split; [|split; [|split; [|split]]].
    + rewrite brightened_data, <- list_fmap_compose.
      cbn [frame_of v_color v_contrast v_bright im_data rgb_part].
      rewrite <- !list_fmap_compose. apply list_fmap_ext.
      intros _ x _. unfold compose, attach_alpha, with_alpha, rgb_of.
      cbn [rgba_r rgba_g rgba_b]. by destruct (color_px _).
    + cbn [frame_of v_bright v_rgb_img im_data].
      apply Forall_fmap_ext. eapply Forall_impl; [exact Hrgb|].
      intros p Hp. apply blend_rgb_saturates;
        [reflexivity | by apply grey_ok | exact Hp].
    + change (im_data (v_contrast (frame img)))
        with (contrast_px (mean_level (v_bright (frame img)))
                <$> im_data (v_bright (frame img))).
      apply Forall_fmap_ext. destruct Hb as [_ Hb].
      eapply Forall_impl; [exact Hb|].
      intros p Hp. apply blend_rgb_saturates;
        [reflexivity | apply grey_ok, mean_level_range | exact Hp].
    + change (im_data (v_color (frame img)))
        with (color_px <$> im_data (v_contrast (frame img))).
      apply Forall_fmap_ext. eapply Forall_impl; [exact Hc|].
      intros p Hp. apply blend_rgb_saturates;
        [reflexivity | by apply grey_ok, L24_range | exact Hp].
    + split; [|by destruct Hb].
      intros v Hv. apply Z.eqb_eq.
      exact (all_uint8_spec _ brightness_floor v Hv).
Qed.

(** C4.  On a fully opaque image the compositing step changes nothing: the
    result is the enhanced image. *)
Theorem opaque_composite_noop img :
  well_formed rgba_ok img → nonempty img →
  Forall (λ p, rgba_a p = 255) (im_data img) →
  ∃ fr, process GaussianBlur img = Ok fr ∧ v_final fr = v_brightened fr.
Proof.
  intros Hwf Hne Hopaque. exists (frame img).
  split; [by apply process_frame|].
  pose proof (brightened_wf GaussianBlur img Hwf) as [Hbl Hbok].
  pose proof (glow_wf img Hwf) as [Hgl Hgok].
  destruct (frame_sizes img Hwf) as (_ & _ & _ & _ & Hbs & Hgs & Hfs).
  assert (im_data (v_final (frame img)) = im_data (v_brightened (frame img))) as Hd.
  { apply list_eq. intros i.
    destruct (im_data (v_brightened (frame img)) !! i) as [e|] eqn:He.
    - destruct (final_lookup img i e Hwf He) as (g & Hg & Hgok' & Heok & ->).
      f_equal.
      assert (rgba_a e = 255) as Ha.
      { rewrite brightened_data in He. rewrite list_lookup_fmap in He.
        destruct (im_data img !! i) as [x|] eqn:Hx; [|done].
        cbn in He. injection He as <-.
        exact (Forall_lookup_1 _ _ _ _ Hopaque Hx). }
      by apply composite_px_opaque.
    - change (im_data (v_final (frame img)))
        with (zip_with composite_px (im_data (v_glow (frame img)))
                                    (im_data (v_brightened (frame img)))).
      rewrite lookup_zip_with, He.
      by destruct (im_data (v_glow (frame img)) !! i). }
  destruct (v_final (frame img)) as [fs fd], (v_brightened (frame img)) as [bs bd].
  cbn [im_size im_data] in *. congruence.
Qed.

(** C5.  Every image of the pipeline has the size of the input. *)
Theorem dimensions_preserved img :
  well_formed rgba_ok img → nonempty img →
  ∃ fr, process GaussianBlur img = Ok fr ∧
    im_size (v_rgb_img fr) = im_size img ∧
    im_size (v_bright fr) = im_size img ∧
    im_size (v_contrast fr) = im_size img ∧
    im_size (v_color fr) = im_size img ∧
    im_size (v_brightened fr) = im_size img ∧
    im_size (v_glow fr) = im_size img ∧
    im_size (v_final fr) = im_size img.
Proof.
  intros Hwf Hne. exists (frame img).
  split; [by apply process_frame|]. by apply frame_sizes.
Qed.

(** C10.  No pixel of the result is more transparent than it was in the
    input. *)
Theorem opacity_never_decreases img :
  well_formed rgba_ok img → nonempty img →
  ∃ fr, process GaussianBlur img = Ok fr ∧
    ∀ i p, im_data img !! i = Some p →
      ∃ o, im_data (v_final fr) !! i = Some o ∧ rgba_a p <= rgba_a o.
Proof.
  intros Hwf Hne. exists (frame img).
  split; [by apply process_frame|].
  intros i p Hp.
  assert (∃ e, im_data (v_brightened (frame img)) !! i = Some e ∧
               rgba_a e = rgba_a p) as (e & He & Hea).
  { rewrite brightened_data, list_lookup_fmap, Hp. cbn. eauto. }
  destruct (final_lookup img i e Hwf He) as (g & Hg & Hgok & Heok & Hf).
  exists (composite_px g e). split; [done|].
  rewrite <- Hea. by apply composite_px_alpha_le.
Qed.
End Pipeline.

(** ** The claims about the enhancers *)

(** ** Factors 0 and 1 take the shortcuts of [blend] *)

Lemma blend_at_one im1 im2 :
  im_size im1 = im_size im2 → blend im1 im2 factor_one = Ok im2.
Proof.
  intros Hsz. unfold blend. rewrite Hsz, size_eqb_refl. cbn [negb]. cbv zeta.
  replace (SFeqb (Float32.of_double factor_one) Float32.zero) with false
    by (by vm_compute).
  replace (SFeqb (Float32.of_double factor_one) Float32.one) with true
    by (by vm_compute).
  reflexivity.
Qed.

Lemma blend_at_zero im1 im2 :
  im_size im1 = im_size im2 → blend im1 im2 factor_zero = Ok im1.
Proof.
  intros Hsz. unfold blend. rewrite Hsz, size_eqb_refl. cbn [negb]. cbv zeta.
  replace (SFeqb (Float32.of_double factor_zero) Float32.zero) with true
    by (by vm_compute).
  reflexivity.
Qed.

(** C9.  At factor 1.0 each of the three enhancers returns its input, and
    the Color enhancer at factor 0 returns the greyscale version of its
    input, every pixel replaced by the grey of its luma. *)
Theorem enhancers_at_one_and_zero (im : Image rgb8) :
  well_formed rgb_ok im → nonempty im →
  (Brightness im ≫= λ e, enhance e factor_one) = Ok im ∧
  (Contrast im ≫= λ e, enhance e factor_one) = Ok im ∧
  (Color im ≫= λ e, enhance e factor_one) = Ok im ∧
  (Color im ≫= λ e, enhance e factor_zero)
    = Ok (convert_L_RGB (convert_RGB_L im)) ∧
  convert_L_RGB (convert_RGB_L im)
    = mkImage (im_size im) ((λ p, grey (L24 p)) <$> im_data im).
Proof.
  intros [Hlen Hok] Hne. repeat split.
  - unfold Brightness, enhance. cbn [mbind result_bind enh_image enh_degenerate].
    by apply blend_at_one.
  - unfold Contrast. rewrite stat_mean_Ok; [|done|].
    2:{ unfold nonempty in Hne. rewrite <- Hlen in Hne.
        destruct (im_data im); [simpl in Hne; lia | done]. }
    cbn [mbind result_bind]. unfold enhance. cbn [enh_image enh_degenerate].
    by apply blend_at_one.
  - unfold Color, enhance. cbn [mbind result_bind enh_image enh_degenerate].
    by apply blend_at_one.
  - unfold Color, enhance. cbn [mbind result_bind enh_image enh_degenerate].
    by apply blend_at_zero.
  - unfold convert_L_RGB, convert_RGB_L. cbn [im_size im_data].
    by rewrite <- list_fmap_compose.
Qed.

(** C8, as amended.  Raising the brightness factor never lowers any channel
    of the output of the brightness stage, nor the luminance of any of its
    pixels, nor their sum (the images have the same number of pixels, so nor
    the mean luminance). *)
Theorem brightness_stage_monotone (im : Image rgb8) (f1 f2 : spec_float) :
  well_formed rgb_ok im →
  valid_binary 53 1024 f1 = true → valid_binary 53 1024 f2 = true →
  SFleb f1 f2 = true →
  ∃ out1 out2,
    (Brightness im ≫= λ e, enhance e f1) = Ok out1 ∧
    (Brightness im ≫= λ e, enhance e f2) = Ok out2 ∧
    length (im_data out1) = length (im_data out2) ∧
    (∀ i p q, im_data out1 !! i = Some p → im_data out2 !! i = Some q →
       rgb_r p <= rgb_r q ∧ rgb_g p <= rgb_g q ∧ rgb_b p <= rgb_b q ∧
       L24 p <= L24 q) ∧
    sumZ (L24 <$> im_data out1) <= sumZ (L24 <$> im_data out2).
Proof.
  intros [Hlen Hok] Hv1 Hv2 Hle.
  eexists _, _. split; [by apply brightness_stage|].
  split; [by apply brightness_stage|]. cbn [im_data].
  assert (∀ x, rgb_ok x →
            rgb_r (bright_rgb (Float32.of_double f1) x)
              <= rgb_r (bright_rgb (Float32.of_double f2) x) ∧
            rgb_g (bright_rgb (Float32.of_double f1) x)
              <= rgb_g (bright_rgb (Float32.of_double f2) x) ∧
            rgb_b (bright_rgb (Float32.of_double f1) x)
              <= rgb_b (bright_rgb (Float32.of_double f2) x)) as Hpx.
  { intros x (Hr & Hg & Hb). cbn [bright_rgb rgb_r rgb_g rgb_b].
    repeat split; by apply bright_chan_monotone. }
  split; [by rewrite !length_fmap|]. split.
  - intros i p q. rewrite !list_lookup_fmap.
    destruct (im_data im !! i) as [x|] eqn:Hx; [|done].
    cbn. intros [= <-] [= <-].
    destruct (Hpx x (Forall_lookup_1 _ _ _ _ Hok Hx)) as (? & ? & ?).
    repeat split; try done. by apply L24_mono.
  - rewrite <- !list_fmap_compose. apply sumZ_fmap_le.
    eapply Forall_impl; [exact Hok|]. intros x Hx.
    destruct (Hpx x Hx) as (? & ? & ?). by apply L24_mono.
Qed.

(** ** The claims about the script as a process *)

Section Script.
Variable decode : bytes → option (Image rgba8).
Variable encode : Image rgba8 → bytes.
Variable GaussianBlur : Z → Image rgba8 → Image rgba8.

Local Abbreviation run := (brighten_icon decode encode GaussianBlur).
Local Abbreviation script := (main decode encode GaussianBlur).

(** An exception raised while opening the input leaves the world as it
    was. *)
Lemma open_failure path out w :
  (files w !! path = None ∨
   ∃ contents, files w !! path = Some contents ∧ decode contents = None) →
  ∃ e, run path out w = (Raise e, w) ∧
       (e = FileNotFoundError path ∨ e = UnidentifiedImageError path).
Proof.
  unfold brighten_icon, io_bind, Image_open.
  intros [Hnone | (contents & Hsome & Hdec)].
  - rewrite Hnone. eauto.
  - rewrite Hsome, Hdec. eauto.
Qed.

(** C6.  If the input file is missing or Pillow cannot decode it, the run
    prints one error line, exits with status 1, and leaves every file as it
    was: in particular nothing appears at the output path. *)
Theorem unreadable_input_fails w :
  (files w !! input_file = None ∨
   ∃ contents, files w !! input_file = Some contents ∧ decode contents = None) →
  ∃ e w', script w = (1, w') ∧ 1 ≠ 0 ∧
    stdout w' = stdout w ++ ["[ERROR] " +:+ exn_str e] ∧
    files w' = files w ∧
    files w' !! output_file = files w !! output_file.
Proof.
  intros Hin. destruct (open_failure input_file output_file w Hin) as (e & He & _).
  exists e. eexists. unfold main. rewrite He. unfold print.
  split; [reflexivity|]. cbn [stdout files]. by repeat split.
Qed.

(** C7.  A run that raises nothing prints the five report lines (the
    output path and the four parameters) and exits with status 0; a run
    that raises an exception prints one error line and exits with
    status 1. *)
Theorem exit_status_and_report w :
  match run input_file output_file w with
  | (Ok _, w') =>
      script w = (0, w') ∧
      stdout w' = stdout w ++ success_report output_file
  | (Raise e, w') =>
      script w = (1, mkWorld (files w') (writable w')
                        (stdout w' ++ ["[ERROR] " +:+ exn_str e])) ∧
      1 ≠ 0
  end.
Proof.
  unfold main.
  destruct (run input_file output_file w) as [[[]|e] w'] eqn:Hrun.
  2:{ by unfold print. }
  split; [reflexivity|].
  revert Hrun. unfold brighten_icon, io_bind, Image_open, io_lift, save, print.
  destruct (files w !! input_file) as [contents|]; [|done].
  destruct (decode contents) as [img|]; [|done].
  destruct (process GaussianBlur img) as [fr|]; [|done].
  destruct (writable w output_file); [|done].
  cbn [files writable stdout]. intros [= <-]. cbn [stdout].
  unfold success_report. by rewrite <- !app_assoc.
Qed.

(** The successful run, spelled out. *)
Lemma successful_run w contents img :
  blur_contract GaussianBlur →
  files w !! input_file = Some contents → decode contents = Some img →
  well_formed rgba_ok img → nonempty img → writable w output_file = true →
  script w = (0, mkWorld (<[output_file := encode (v_final (frame_of GaussianBlur img))]> (files w))
                   (writable w) (stdout w ++ success_report output_file)).
Proof.
  intros Hblur Hfile Hdec Hwf Hne Hwr.
  unfold main, brighten_icon, io_bind, Image_open, io_lift, save, print.
  rewrite Hfile, Hdec, (process_frame GaussianBlur Hblur img Hwf Hne).
  rewrite Hwr. cbn [files writable stdout].
  unfold success_report. by rewrite <- !app_assoc.
Qed.
End Script.

(** ** Counterexamples *)

(** C2, as stated, fails.  For one half-transparent white pixel (whose blurred
    copy is the pixel itself) the compositing step stores colour 255, while
    the premultiplied formula of the specification gives
    255 * (128/255 + 128/255 * 127/255), about 192. *)
Lemma premultiplied_over_fails :
  match process no_blur half_white with
  | Ok fr =>
      im_data (v_glow fr) = [RGBA8 255 255 255 128] ∧
      im_data (v_brightened fr) = [RGBA8 255 255 255 128] ∧
      im_data (v_final fr) = [RGBA8 255 255 255 192] ∧
      ¬ premultiplied_over (RGBA8 255 255 255 128) (RGBA8 255 255 255 128)
                           (RGBA8 255 255 255 192)
  | Raise _ => False
  end.
Proof.
  vm_compute. repeat split. intros (_ & H & _). discriminate H.
Qed.

(** C8, as stated, fails.  On two opaque grey pixels (60 and 250), raising
    the brightness factor from 1.0 to 1.015625 moves the light pixel from 250
    to 253 and leaves the dark one at 60; the rounded mean grey of the
    contrast stage goes from 155 to 157, and the dark pixel ends at 30 instead
    of 31 while the light one saturates at 255 both times. *)
Lemma brightness_not_monotone :
  SFleb factor_one factor_high = true ∧
  match process_with no_blur factor_one two_greys,
        process_with no_blur factor_high two_greys with
  | Ok fr1, Ok fr2 =>
      im_data (v_final fr1) = [RGBA8 31 31 31 255; RGBA8 255 255 255 255] ∧
      im_data (v_final fr2) = [RGBA8 30 30 30 255; RGBA8 255 255 255 255] ∧
      (mean_luminance (v_final fr2) < mean_luminance (v_final fr1))%Q
  | _, _ => False
  end.
Proof. vm_compute. repeat split. Qed.

(** ** The statements at concrete inputs *)

Lemma no_blur_contract : blur_contract no_blur.
Proof. intros radius im Hwf. by split. Qed.

Ltac solve_wf :=
  split;
  [ reflexivity
  | simpl; repeat apply Forall_cons_2; try apply Forall_nil_2;
    unfold rgba_ok, rgb_ok, is_uint8; simpl; lia ].
Ltac solve_nonempty := unfold nonempty, npixels; simpl; lia.

Lemma alpha_plane_preserved_witness :
  ∃ fr, process no_blur icon_2x2 = Ok fr ∧
    v_a fr = getband rgba_a icon_2x2 ∧
    getband rgba_a (v_brightened fr) = v_a fr ∧
    (∀ i p, im_data icon_2x2 !! i = Some p → rgba_a p = 0 →
       ∃ q, im_data (v_brightened fr) !! i = Some q ∧ rgba_a q = 0).
Proof.
  apply (alpha_plane_preserved no_blur no_blur_contract icon_2x2);
    [solve_wf | solve_nonempty].
Defined.

Lemma composite_straight_over_witness :
  ∃ fr, process no_blur icon_2x2 = Ok fr ∧
    alpha_composite (v_glow fr) (v_brightened fr) = Ok (v_final fr) ∧
    (∀ i e, im_data (v_brightened fr) !! i = Some e →
       ∃ g o, im_data (v_glow fr) !! i = Some g ∧
              im_data (v_final fr) !! i = Some o ∧
              o = composite_px g e ∧ straight_over g e o).
Proof.
  apply (composite_straight_over no_blur no_blur_contract icon_2x2);
    [solve_wf | solve_nonempty].
Defined.

Lemma enhancement_order_witness :
  ∃ fr, process no_blur icon_2x2 = Ok fr ∧
    (Contrast (v_bright fr) ≫= λ e, enhance e CONTRAST) = Ok (v_contrast fr) ∧
    Forall rgb_ok (im_data (v_color fr)).
Proof.
  destruct (enhancement_order no_blur no_blur_contract icon_2x2)
    as (fr & Hfr & _ & _ & Hc & _ & _ & _ & _ & _ & _ & _ & _ & Hok);
    [solve_wf | solve_nonempty |].
  exists fr. repeat split; assumption.
Defined.

Lemma opaque_composite_noop_witness :
  ∃ fr, process no_blur opaque_2x2 = Ok fr ∧ v_final fr = v_brightened fr.
Proof.
  apply (opaque_composite_noop no_blur no_blur_contract opaque_2x2);
    [solve_wf | solve_nonempty | simpl; repeat constructor].
Defined.

Lemma dimensions_preserved_witness :
  ∃ fr, process no_blur icon_2x2 = Ok fr ∧
    im_size (v_rgb_img fr) = (2%nat, 2%nat) ∧
    im_size (v_glow fr) = (2%nat, 2%nat) ∧
    im_size (v_final fr) = (2%nat, 2%nat).
Proof.
  destruct (dimensions_preserved no_blur no_blur_contract icon_2x2)
    as (fr & Hfr & H1 & _ & _ & _ & _ & H6 & H7);
    [solve_wf | solve_nonempty |].
  exists fr. repeat split; assumption.
Defined.

Lemma opacity_never_decreases_witness :
  ∃ fr, process no_blur icon_2x2 = Ok fr ∧
    ∀ i p, im_data icon_2x2 !! i = Some p →
      ∃ o, im_data (v_final fr) !! i = Some o ∧ rgba_a p <= rgba_a o.
Proof.
  apply (opacity_never_decreases no_blur no_blur_contract icon_2x2);
    [solve_wf | solve_nonempty].
Defined.

Lemma enhancers_at_one_and_zero_witness :
  (Contrast (rgb_part icon_2x2) ≫= λ e, enhance e factor_one)
    = Ok (rgb_part icon_2x2) ∧
  (Color (rgb_part icon_2x2) ≫= λ e, enhance e factor_zero)
    = Ok (convert_L_RGB (convert_RGB_L (rgb_part icon_2x2))).
Proof.
  destruct (enhancers_at_one_and_zero (rgb_part icon_2x2))
    as (_ & Hc & _ & Hz & _); [solve_wf | solve_nonempty |].
  split; assumption.
Defined.

Lemma brightness_stage_monotone_witness :
  ∃ out1 out2,
    (Brightness (rgb_part two_greys) ≫= λ e, enhance e factor_one) = Ok out1 ∧
    (Brightness (rgb_part two_greys) ≫= λ e, enhance e factor_high) = Ok out2 ∧
    sumZ (L24 <$> im_data out1) <= sumZ (L24 <$> im_data out2).
Proof.
  destruct (brightness_stage_monotone (rgb_part two_greys) factor_one factor_high)
    as (out1 & out2 & H1 & H2 & _ & _ & Hsum).
  - split; [reflexivity|].
    simpl; repeat apply Forall_cons_2; try apply Forall_nil_2;
      unfold rgb_ok, is_uint8; simpl; lia.
  - reflexivity.
  - reflexivity.
  - reflexivity.
  - exists out1, out2. repeat split; assumption.
Defined.

Lemma unreadable_input_fails_witness :
  ∃ e w', main raw_decode raw_encode no_blur empty_world = (1, w') ∧ 1 ≠ 0 ∧
    stdout w' = stdout empty_world ++ ["[ERROR] " +:+ exn_str e] ∧
    files w' = files empty_world ∧
    files w' !! output_file = files empty_world !! output_file.
Proof.
  apply (unreadable_input_fails raw_decode raw_encode no_blur empty_world).
  left. reflexivity.
Defined.

(** A successful run of the script on the one-pixel input. *)
Example run_on_one_pixel :
  ∃ w', main raw_decode raw_encode no_blur world_with_icon = (0, w') ∧
    stdout w' = success_report output_file ∧
    files w' !! output_file = Some [Byte.x00; Byte.xff; Byte.xff; Byte.xff] ∧
    files w' !! input_file = files world_with_icon !! input_file.
Proof.
  eexists. split.
  - apply (successful_run raw_decode raw_encode no_blur world_with_icon
             [Byte.x00; Byte.x96; Byte.xff; Byte.xff]
             (mkImage (1%nat, 1%nat) [RGBA8 0 150 255 255]));
      [exact no_blur_contract | by vm_compute | reflexivity
      | solve_wf | solve_nonempty | reflexivity].
  - cbn [stdout files]. split; [reflexivity|]. split.
    + rewrite lookup_insert_eq. by vm_compute.
    + by rewrite lookup_insert_ne.
Qed.
